(** * Winlogbeat beater: the polling workers, the coordinator and the stop signal

    A shallow embedding of [winlogbeat/beater/winlogbeat.go]: [Setup], [Run],
    [Stop] and [processEventLog].  The event log API, the publisher client
    and the checkpoint store are collaborators of that file; they are taken
    as interfaces (type classes), so every statement below holds for all
    their implementations.  Goroutines are interleaved by an explicit
    schedule, and every call the code makes is appended to a trace. *)

From stdpp Require Import gmap strings list sorting.

Local Open Scope Z_scope.
Local Open Scope string_scope.
Local Open Scope list_scope.

(** ** Go runtime notions *)

(** A Go [error] value, by its message. *)
Definition error : Type := string.

(** A [chan struct{}] on which nothing is ever sent: it is nil, open or closed. *)
Inductive chan : Type := ChanNil | ChanOpen | ChanClosed.

#[global] Instance chan_eq_dec : EqDecision chan.
Proof. solve_decision. Defined.

(** A call either returns or panics. *)
Inductive result (A : Type) : Type :=
| Ok (a : A)
| Panic (msg : string).
Arguments Ok {A} a.
Arguments Panic {A} msg.

(** [close(ch)]: closing a nil or an already closed channel panics. *)
Definition close (ch : chan) : result chan :=
  match ch with
  | ChanNil => Panic "close of nil channel"
  | ChanOpen => Ok ChanClosed
  | ChanClosed => Panic "close of closed channel"
  end.

Module time.
(** A [time.Time]: an instant (nanoseconds since the zero time) and a
    location, where no location stands for UTC. *)
Record Time : Type := mkTime { wall : Z; loc : option string }.

Definition zero : Time := {| wall := 0; loc := None |}.

(** [t.UTC()]: the same instant, with the location set to UTC. *)
Definition UTC (t : Time) : Time := {| wall := wall t; loc := None |}.

(** [time.Second], a Duration in nanoseconds. *)
Definition Second : Z := 1000000000.
End time.

Module checkpoint.
(** Modelled from the spec: the checkpoint package is not part of the
    sources at hand.  A checkpoint state is, per source name, the last
    published record number and its timestamp; these are the three
    arguments of [Persist], and [RecordNumber] is what [processEventLog]
    reads. *)
Record EventLogState : Type := mkState {
  Name : string;
  RecordNumber : Z;
  Timestamp : time.Time;
}.

(** The zero value of the struct, which a Go map lookup yields for an
    absent key. *)
Definition zero : EventLogState :=
    {| Name := ""; RecordNumber := 0; Timestamp := time.zero |}.

(** The three methods of [*checkpoint.Checkpoint] that the beater calls,
    over the state [K] of a store. *)
Class Checkpoint (K : Type) : Type := {
  States : K → gmap string EventLogState;
  Persist : string → Z → time.Time → K → K;
  Shutdown : K → K;
}.
End checkpoint.

Module eventlog.
(** What the beater uses of an [eventlog.Record]: its [RecordID] (uint64),
    its [TimeCreated.SystemTime] and its conversion [ToMapStr]. *)
Class Record (Rec MapStr : Type) : Type := {
  RecordID : Rec → Z;
  SystemTime : Rec → time.Time;
  ToMapStr : Rec → MapStr;
}.

(** The [eventlog.EventLog] interface over the state [S] of a source.
    [Read] returns both a slice and an error, as in Go. *)
Class EventLog (Rec S : Type) : Type := {
  Open : Z → S → option error * S;
  Read : S → (list Rec * option error) * S;
  Close : S → option error * S;
  Name : S → string;
}.
End eventlog.

Module publisher.
Inductive ClientOption : Type := Sync | Guaranteed.

(** The [publisher.Client] interface over the state [C] of a client. *)
Class Client (MapStr C : Type) : Type := {
  PublishEvents : list MapStr → list ClientOption → C → bool * C;
  Close : C → C;
}.
End publisher.

(** The two expvar maps of the package. *)
Inductive expvarMap : Type := publishedEvents | ignoredEvents.

Inductive level : Type := Debug | Info | Warn.

(** The log lines of the file, by format string. *)
Inductive message : Type :=
| MsgStopping
| MsgOpenError (name : string) (err : error)
| MsgStopProcessing
| MsgCloseError (name : string) (err : error)
| MsgOpened (name : string)
| MsgReadError (name : string) (err : error)
| MsgReadReturned (name : string) (n : nat)
| MsgPublished (name : string) (numEvents : Z).

(** Goroutines: the one that runs [Run], one per event log, and the callers
    of [Stop]. *)
Inductive tid : Type := TMain | TWorker (i : nat) | TStop (j : nat).

#[global] Instance tid_eq_dec : EqDecision tid.
Proof. solve_decision. Defined.

(** Program points of [processEventLog]. *)
Inductive wpc (Rec : Type) : Type :=
| PcOpen (state : checkpoint.EventLogState)
| PcSelect
| PcRead
| PcSleep
| PcPublish (records : list Rec)
| PcPersist (records : list Rec)
| PcDeferClose
| PcDeferDone
| PcExit.
Arguments PcOpen {Rec} state.
Arguments PcSelect {Rec}.
Arguments PcRead {Rec}.
Arguments PcSleep {Rec}.
Arguments PcPublish {Rec} records.
Arguments PcPersist {Rec} records.
Arguments PcDeferClose {Rec}.
Arguments PcDeferDone {Rec}.
Arguments PcExit {Rec}.

(** Program points of [Run]; the loop carries the map read at its start. *)
Inductive mpc : Type :=
| MainStates
| MainLoop (k : nat) (persistedState : gmap string checkpoint.EventLogState)
| MainWait
| MainShutdown
| MainReturned.

(** Program points of one call of [Stop]. *)
Inductive spc : Type := StopCheck | StopClientClose | StopReturned.

(** Every call made by the file, with its arguments and its result. *)
Inductive Event (Rec MapStr : Type) : Type :=
| EvLog (l : level) (m : message)
| EvAdd (m : expvarMap) (key : string) (delta : Z)
| EvStates
| EvWgAdd (delta : Z)
| EvGo (i : nat) (state : checkpoint.EventLogState)
| EvWgWait
| EvShutdown
| EvOpen (recordNumber : Z) (err : option error)
| EvSelect (stopping : bool)
| EvRead (records : list Rec) (err : option error)
| EvSleep (d : Z)
| EvPublish (events : list MapStr) (opts : list publisher.ClientOption) (ok : bool)
| EvPersist (name : string) (recordNumber : Z) (ts : time.Time)
| EvClose (err : option error)
| EvWgDone
| EvCloseDone
| EvClientClose.
Arguments EvLog {Rec MapStr} l m.
Arguments EvAdd {Rec MapStr} m key delta.
Arguments EvStates {Rec MapStr}.
Arguments EvWgAdd {Rec MapStr} delta.
Arguments EvGo {Rec MapStr} i state.
Arguments EvWgWait {Rec MapStr}.
Arguments EvShutdown {Rec MapStr}.
Arguments EvOpen {Rec MapStr} recordNumber err.
Arguments EvSelect {Rec MapStr} stopping.
Arguments EvRead {Rec MapStr} records err.
Arguments EvSleep {Rec MapStr} d.
Arguments EvPublish {Rec MapStr} events opts ok.
Arguments EvPersist {Rec MapStr} name recordNumber ts.
Arguments EvClose {Rec MapStr} err.
Arguments EvWgDone {Rec MapStr}.
Arguments EvCloseDone {Rec MapStr}.
Arguments EvClientClose {Rec MapStr}.

(** ** The beater *)

Module beater.
Section beater.
Context {Rec MapStr S C K Cfg : Type}.
Context `{!eventlog.Record Rec MapStr, !eventlog.EventLog Rec S,
            !publisher.Client MapStr C, !checkpoint.Checkpoint K}.

Abbreviation Event := (Event Rec MapStr).
Abbreviation wpc := (wpc Rec).

(** The part of [config.Settings] that [Setup] reads. *)
Record Settings : Type := mkSettings {
  RegistryFile : string;
  Metrics_BindAddress : string;
  EventLogs : list Cfg;
}.

(** The struct [Winlogbeat]; [beat] is never read by the code below. *)
Record Winlogbeat : Type := mkWinlogbeat {
  config : option Settings;
  eventLogs : list S;
  done : chan;
  client : option C;
  checkpoint : option K;
}.

(** [New]: every field at its zero value. *)
Definition New : Winlogbeat :=
  {| config := None; eventLogs := []; done := ChanNil;
     client := None; checkpoint := None |}.

(** What [Setup] obtains from outside the package. *)
Record Beat : Type := mkBeat {
  Publisher_Connect : C;
  NewCheckpoint : string → Z → Z → K + error;
  net_Listen : string → string → option error;
  eventlog_New : Cfg → S + error;
}.

(** The loop of [Setup] that creates the event logs: it stops at the first
    failure, keeping the logs appended so far. *)
Fixpoint newEventLogs (b : Beat) (cfgs : list Cfg) (acc : list S)
  : list S * option error :=
  match cfgs with
  | [] => (acc, None)
  | cfg :: rest =>
      match eventlog_New b cfg with
      | inr err => (acc, Some ("Failed to create new event log. " +:+ err))
      | inl eventLog => newEventLogs b rest (acc ++ [eventLog])
      end
  end.

(** [Setup]: returns the beater as it is left, and the error if any. *)
Definition Setup (b : Beat) (eb : Winlogbeat) : result (Winlogbeat * option error) :=
  match config eb with
  | None => Panic "nil pointer dereference"
  | Some cfg =>
      let eb1 := {| config := config eb; eventLogs := eventLogs eb;
                    done := ChanOpen; client := Some (Publisher_Connect b);
                    checkpoint := checkpoint eb |} in
      match NewCheckpoint b (RegistryFile cfg) 10 (5 * time.Second) with
      | inr err =>
          Ok ({| config := config eb1; eventLogs := eventLogs eb1;
                 done := done eb1; client := client eb1;
                 checkpoint := None |}, Some err)
      | inl k =>
          let eb2 := {| config := config eb1; eventLogs := eventLogs eb1;
                        done := done eb1; client := client eb1;
                        checkpoint := Some k |} in
          let listen :=
            if decide (Metrics_BindAddress cfg = "") then None
            else net_Listen b "tcp" (Metrics_BindAddress cfg) in
          match listen with
          | Some err => Ok (eb2, Some err)
          | None =>
              let '(logs, err) := newEventLogs b (EventLogs cfg) [] in
              Ok ({| config := config eb2; eventLogs := logs;
                     done := done eb2; client := client eb2;
                     checkpoint := checkpoint eb2 |}, err)
          end
      end
  end.

(** [Stop]: closes the done channel and the client when the channel is set. *)
Definition Stop (eb : Winlogbeat) : result Winlogbeat :=
  match done eb with
  | ChanNil => Ok eb
  | ch =>
      match close ch with
      | Panic msg => Panic msg
      | Ok ch' =>
          match client eb with
          | None => Panic "nil pointer dereference"
          | Some c =>
              Ok {| config := config eb; eventLogs := eventLogs eb;
                    done := ch'; client := Some (publisher.Close c);
                    checkpoint := checkpoint eb |}
          end
      end
  end.

(** ** The running process

    A world is the beater, the wait group of [Run], the program point of
    every goroutine and the trace of the calls made so far.  A goroutine
    that panics runs its deferred calls and then ends the process. *)

Record goroutine : Type := mkGoroutine {
  pc : wpc;
  panicking : option string;
}.

Record World : Type := mkWorld {
  eb : Winlogbeat;
  wg : Z;
  main : mpc;
  workers : list goroutine;
  stops : list spc;
  crashed : option string;
  trace : list (tid * Event);
}.

(** The world in which [Run] is entered. *)
Definition init (b : Winlogbeat) : World :=
  {| eb := b; wg := 0; main := MainStates; workers := []; stops := [];
     crashed := None; trace := [] |}.

Definition set_eb (f : Winlogbeat → Winlogbeat) (w : World) : World :=
  {| eb := f (eb w); wg := wg w; main := main w; workers := workers w;
     stops := stops w; crashed := crashed w; trace := trace w |}.

Definition set_eventLog (i : nat) (api : S) : World → World :=
  set_eb (λ b, {| config := config b; eventLogs := <[i:=api]> (eventLogs b);
                  done := done b; client := client b;
                  checkpoint := checkpoint b |}).

Definition set_done (ch : chan) : World → World :=
  set_eb (λ b, {| config := config b; eventLogs := eventLogs b; done := ch;
                  client := client b; checkpoint := checkpoint b |}).

Definition set_client (c : C) : World → World :=
  set_eb (λ b, {| config := config b; eventLogs := eventLogs b;
                  done := done b; client := Some c;
                  checkpoint := checkpoint b |}).

Definition set_checkpoint (k : K) : World → World :=
  set_eb (λ b, {| config := config b; eventLogs := eventLogs b;
                  done := done b; client := client b;
                  checkpoint := Some k |}).

Definition set_wg (n : Z) (w : World) : World :=
  {| eb := eb w; wg := n; main := main w; workers := workers w;
     stops := stops w; crashed := crashed w; trace := trace w |}.

Definition set_main (p : mpc) (w : World) : World :=
  {| eb := eb w; wg := wg w; main := p; workers := workers w;
     stops := stops w; crashed := crashed w; trace := trace w |}.

Definition set_workers (gs : list goroutine) (w : World) : World :=
  {| eb := eb w; wg := wg w; main := main w; workers := gs;
     stops := stops w; crashed := crashed w; trace := trace w |}.

Definition set_stops (ss : list spc) (w : World) : World :=
  {| eb := eb w; wg := wg w; main := main w; workers := workers w;
     stops := ss; crashed := crashed w; trace := trace w |}.

(** An unrecovered panic ends the process. *)
Definition crash (msg : string) (w : World) : World :=
  {| eb := eb w; wg := wg w; main := main w; workers := workers w;
     stops := stops w; crashed := Some msg; trace := trace w |}.

(** Appends one call to the trace. *)
Definition emit (t : tid) (e : Event) (w : World) : World :=
  {| eb := eb w; wg := wg w; main := main w; workers := workers w;
     stops := stops w; crashed := crashed w; trace := trace w ++ [(t, e)] |}.

(** Moves worker [i] to the program point [p]. *)
Definition goto (i : nat) (p : wpc) (w : World) : World :=
  set_workers
    (alter (λ g, {| pc := p; panicking := panicking g |}) i (workers w)) w.

(** A panic in the loop of worker [i]: both deferred calls are still run. *)
Definition throw (i : nat) (msg : string) (w : World) : World :=
  set_workers
    (alter (λ _, {| pc := PcDeferClose; panicking := Some msg |}) i (workers w)) w.

(** The options of every call of [PublishEvents]. *)
Definition opts : list publisher.ClientOption :=
  [publisher.Sync; publisher.Guaranteed].

(** ** [processEventLog], one call per step *)

Definition processEventLog (i : nat) (w : World) : option World :=
  g ← workers w !! i;
  api ← eventLogs (eb w) !! i;
  let t := TWorker i in
  match pc g with
  | PcOpen state =>
      (* err := api.Open(state.RecordNumber) *)
      let '(err, api) := eventlog.Open (checkpoint.RecordNumber state) api in
      let w := emit t (EvOpen (checkpoint.RecordNumber state) err)
                 (set_eventLog i api w) in
      match err with
      | Some e =>
          Some (goto i PcDeferDone
                  (emit t (EvLog Warn (MsgOpenError (eventlog.Name api) e)) w))
      | None =>
          Some (goto i PcSelect
                  (emit t (EvLog Debug (MsgOpened (eventlog.Name api))) w))
      end
  | PcSelect =>
      (* select { case <-eb.done: return; default: } *)
      match done (eb w) with
      | ChanClosed => Some (goto i PcDeferClose (emit t (EvSelect true) w))
      | _ => Some (goto i PcRead (emit t (EvSelect false) w))
      end
  | PcRead =>
      (* records, err := api.Read() *)
      let '((records, err), api) := eventlog.Read api in
      let w := emit t (EvRead records err) (set_eventLog i api w) in
      match err with
      | Some e =>
          Some (goto i PcDeferClose
                  (emit t (EvLog Warn (MsgReadError (eventlog.Name api) e)) w))
      | None =>
          let w := emit t (EvLog Debug
                     (MsgReadReturned (eventlog.Name api) (length records))) w in
          if decide (length records = 0%nat)
          then Some (goto i PcSleep w)
          else Some (goto i (PcPublish records) w)
      end
  | PcSleep =>
      (* time.Sleep(time.Second); continue *)
      Some (goto i PcSelect (emit t (EvSleep time.Second) w))
  | PcPublish records =>
      let events := map eventlog.ToMapStr records in
      let numEvents := Z.of_nat (length events) in
      match client (eb w) with
      | None => Some (throw i "nil pointer dereference" w)
      | Some c =>
          (* ok := eb.client.PublishEvents(events, publisher.Sync, publisher.Guaranteed) *)
          let '(ok, c) := publisher.PublishEvents events opts c in
          let w := emit t (EvPublish events opts ok) (set_client c w) in
          if ok then
            Some (goto i (PcPersist records)
                    (emit t (EvLog Info (MsgPublished (eventlog.Name api) numEvents))
                       (emit t (EvAdd publishedEvents (eventlog.Name api) numEvents)
                          (emit t (EvAdd publishedEvents "total" numEvents) w))))
          else Some (goto i PcDeferClose w)
      end
  | PcPersist records =>
      (* eb.checkpoint.Persist(api.Name(), records[len(records)-1].RecordID,
                               records[len(records)-1].TimeCreated.SystemTime.UTC()) *)
      match last records with
      | None => Some (throw i "index out of range" w)
      | Some r =>
          match checkpoint (eb w) with
          | None => Some (throw i "nil pointer dereference" w)
          | Some k =>
              let name := eventlog.Name api in
              let id := eventlog.RecordID r in
              let ts := time.UTC (eventlog.SystemTime r) in
              Some (goto i PcSelect
                      (emit t (EvPersist name id ts)
                         (set_checkpoint (checkpoint.Persist name id ts k) w)))
          end
      end
  | PcDeferClose =>
      (* the deferred closure: logp.Info, then api.Close() *)
      let w := emit t (EvLog Info MsgStopProcessing) w in
      let '(err, api) := eventlog.Close api in
      let w := emit t (EvClose err) (set_eventLog i api w) in
      match err with
      | Some e =>
          Some (goto i PcDeferDone
                  (emit t (EvLog Warn (MsgCloseError (eventlog.Name api) e)) w))
      | None => Some (goto i PcDeferDone w)
      end
  | PcDeferDone =>
      (* the deferred wg.Done() *)
      let w := goto i PcExit (emit t EvWgDone (set_wg (wg w - 1) w)) in
      if decide (wg w < 0) then Some (crash "sync: negative WaitGroup counter" w)
      else match panicking g with
           | Some msg => Some (crash msg w)
           | None => Some w
           end
  | PcExit => None
  end.

(** ** [Run], one call per step *)

Definition Run (w : World) : option World :=
  let t := TMain in
  match main w with
  | MainStates =>
      (* persistedState := eb.checkpoint.States() *)
      match checkpoint (eb w) with
      | None => Some (crash "nil pointer dereference" w)
      | Some k =>
          Some (set_main (MainLoop 0 (checkpoint.States k))
                  (emit t (EvAdd ignoredEvents "total" 0)
                     (emit t (EvAdd publishedEvents "total" 0)
                        (emit t EvStates w))))
      end
  | MainLoop k persistedState =>
      (* for _, log := range eb.eventLogs *)
      match eventLogs (eb w) !! k with
      | Some log =>
          (* state, _ := persistedState[log.Name()] *)
          let state := default checkpoint.zero (persistedState !! eventlog.Name log) in
          let w := emit t (EvAdd ignoredEvents (eventlog.Name log) 0)
                     (emit t (EvAdd publishedEvents (eventlog.Name log) 0) w) in
          (* wg.Add(1); go eb.processEventLog(&wg, log, state) *)
          let w := emit t (EvWgAdd 1) (set_wg (wg w + 1) w) in
          let w := emit t (EvGo k state)
                     (set_workers
                        (workers w ++ [{| pc := PcOpen state; panicking := None |}]) w) in
          Some (set_main (MainLoop (Datatypes.S k) persistedState) w)
      | None => Some (set_main MainWait w)
      end
  | MainWait =>
      (* wg.Wait() blocks until the counter is zero *)
      if decide (wg w = 0) then Some (set_main MainShutdown (emit t EvWgWait w))
      else None
  | MainShutdown =>
      (* eb.checkpoint.Shutdown() *)
      match checkpoint (eb w) with
      | None => Some (crash "nil pointer dereference" w)
      | Some k =>
          Some (set_main MainReturned
                  (emit t EvShutdown (set_checkpoint (checkpoint.Shutdown k) w)))
      end
  | MainReturned => None
  end.

(** ** Calls of [Stop] made while the process runs

    The [j]-th call of [Stop] is a goroutine of its own; the step of a call
    that has not begun yet begins it. *)

Definition stopping (j : nat) (w : World) : option World :=
  let t := TStop j in
  match stops w !! j with
  | None =>
      if decide (j = length (stops w))
      then Some (set_stops (stops w ++ [StopCheck]) (emit t (EvLog Info MsgStopping) w))
      else None
  | Some StopCheck =>
      (* if eb.done != nil { close(eb.done) *)
      match done (eb w) with
      | ChanNil => Some (set_stops (<[j:=StopReturned]> (stops w)) w)
      | ch =>
          match close ch with
          | Panic msg => Some (crash msg w)
          | Ok ch' =>
              Some (set_stops (<[j:=StopClientClose]> (stops w))
                      (emit t EvCloseDone (set_done ch' w)))
          end
      end
  | Some StopClientClose =>
      (* eb.client.Close() } *)
      match client (eb w) with
      | None => Some (crash "nil pointer dereference" w)
      | Some c =>
          Some (set_stops (<[j:=StopReturned]> (stops w))
                  (emit t EvClientClose (set_client (publisher.Close c) w)))
      end
  | Some StopReturned => None
  end.

(** ** Schedules *)

(** One step of goroutine [t]; [None] when it cannot move (it has returned,
    it waits, or the process has ended). *)
Definition step (t : tid) (w : World) : option World :=
  match crashed w with
  | Some _ => None
  | None =>
      match t with
      | TMain => Run w
      | TWorker i => processEventLog i w
      | TStop j => stopping j w
      end
  end.

(** A turn given to a goroutine that cannot move changes nothing. *)
Definition tick (w : World) (t : tid) : World := default w (step t w).

Definition exec (sched : list tid) (w : World) : World := foldl tick w sched.

(** The calls made by goroutine [t], in order. *)
Definition calls (t : tid) (w : World) : list Event :=
  (filter (λ x, x.1 = t) (trace w)).*2.

(** ** The moves of one worker

    What one step of [processEventLog] does to the goroutine that takes it,
    with the calls it makes; [processEventLog_moves] below shows that every
    step is one of these. *)

Inductive move : goroutine → list Event → goroutine → Prop :=
| move_open_error st pn e name :
    move (mkGoroutine (PcOpen st) pn)
      [EvOpen (checkpoint.RecordNumber st) (Some e);
       EvLog Warn (MsgOpenError name e)]
      (mkGoroutine PcDeferDone pn)
| move_open st pn name :
    move (mkGoroutine (PcOpen st) pn)
      [EvOpen (checkpoint.RecordNumber st) None; EvLog Debug (MsgOpened name)]
      (mkGoroutine PcSelect pn)
| move_select_done pn :
    move (mkGoroutine PcSelect pn) [EvSelect true] (mkGoroutine PcDeferClose pn)
| move_select_default pn :
    move (mkGoroutine PcSelect pn) [EvSelect false] (mkGoroutine PcRead pn)
| move_read_error pn records e name :
    move (mkGoroutine PcRead pn)
      [EvRead records (Some e); EvLog Warn (MsgReadError name e)]
      (mkGoroutine PcDeferClose pn)
| move_read_empty pn records name :
    length records = 0%nat →
    move (mkGoroutine PcRead pn)
      [EvRead records None;
       EvLog Debug (MsgReadReturned name (length records))]
      (mkGoroutine PcSleep pn)
| move_read_batch pn records name :
    length records ≠ 0%nat →
    move (mkGoroutine PcRead pn)
      [EvRead records None;
       EvLog Debug (MsgReadReturned name (length records))]
      (mkGoroutine (PcPublish records) pn)
| move_sleep pn :
    move (mkGoroutine PcSleep pn) [EvSleep time.Second] (mkGoroutine PcSelect pn)
| move_publish_ok pn records name :
    move (mkGoroutine (PcPublish records) pn)
      [EvPublish (map eventlog.ToMapStr records) opts true;
       EvAdd publishedEvents "total" (Z.of_nat (length (map eventlog.ToMapStr records)));
       EvAdd publishedEvents name (Z.of_nat (length (map eventlog.ToMapStr records)));
       EvLog Info (MsgPublished name (Z.of_nat (length (map eventlog.ToMapStr records))))]
      (mkGoroutine (PcPersist records) pn)
| move_publish_failed pn records :
    move (mkGoroutine (PcPublish records) pn)
      [EvPublish (map eventlog.ToMapStr records) opts false]
      (mkGoroutine PcDeferClose pn)
| move_persist pn records r name :
    last records = Some r →
    move (mkGoroutine (PcPersist records) pn)
      [EvPersist name (eventlog.RecordID r) (time.UTC (eventlog.SystemTime r))]
      (mkGoroutine PcSelect pn)
| move_publish_panic pn records msg :
    move (mkGoroutine (PcPublish records) pn) []
      (mkGoroutine PcDeferClose (Some msg))
| move_persist_panic pn records msg :
    move (mkGoroutine (PcPersist records) pn) []
      (mkGoroutine PcDeferClose (Some msg))
| move_close pn :
    move (mkGoroutine PcDeferClose pn)
      [EvLog Info MsgStopProcessing; EvClose None]
      (mkGoroutine PcDeferDone pn)
| move_close_error pn e name :
    move (mkGoroutine PcDeferClose pn)
      [EvLog Info MsgStopProcessing; EvClose (Some e);
       EvLog Warn (MsgCloseError name e)]
      (mkGoroutine PcDeferDone pn)
| move_done pn :
    move (mkGoroutine PcDeferDone pn) [EvWgDone] (mkGoroutine PcExit pn).

(** The runs of one worker started with the checkpoint state [st]: the
    goroutine and the calls it has made. *)
Inductive run (st : checkpoint.EventLogState) : goroutine → list Event → Prop :=
| run_start : run st (mkGoroutine (PcOpen st) None) []
| run_move g evs g' tr : run st g tr → move g evs g' → run st g' (tr ++ evs).

(** Calls that touch neither the source, the client nor the store. *)
Definition bookkeeping (e : Event) : Prop :=
  match e with
  | EvLog _ _ | EvAdd _ _ _ => True
  | _ => False
  end.

(** The batch [records] has been published with success, and since then
    only bookkeeping calls were made. *)
Definition acknowledged (records : list Rec) (tr : list Event) : Prop :=
  ∃ pre mid,
    tr = pre ++ EvPublish (map eventlog.ToMapStr records) opts true :: mid ∧
    Forall bookkeeping mid.

(** The calls of the deferred closure, for the outcome [err] of [Close]. *)
Definition closing (err : option error) (name : string) : list Event :=
  [EvLog Info MsgStopProcessing; EvClose err] ++
  match err with
  | Some e => [EvLog Warn (MsgCloseError name e)]
  | None => []
  end.

(** The calls of both deferred functions. *)
Definition cleanup (err : option error) (name : string) : list Event :=
  closing err name ++ [EvWgDone].

(** A goroutine that has left the loop, and the calls it made since. *)
Definition leaving (g : goroutine) (tr : list Event) : Prop :=
  match pc g with
  | PcDeferClose => tr = []
  | PcDeferDone => ∃ err name, tr = closing err name
  | PcExit => ∃ err name, tr = cleanup err name
  | _ => False
  end.

(** The calls on which the loop is left, each with the calls that the same
    step makes after it. *)
Inductive leaves : Event → list Event → Prop :=
| leaves_done : leaves (EvSelect true) []
| leaves_read records e name :
    leaves (EvRead records (Some e)) [EvLog Warn (MsgReadError name e)]
| leaves_publish events o : leaves (EvPublish events o false) [].

Definition is_publish (e : Event) : Prop :=
  match e with EvPublish _ _ _ => True | _ => False end.

Definition is_persist (e : Event) : Prop :=
  match e with EvPersist _ _ _ => True | _ => False end.

Definition is_close (e : Event) : Prop :=
  match e with EvClose _ => True | _ => False end.

Definition is_shutdown (e : Event) : Prop :=
  match e with EvShutdown => True | _ => False end.

(** The calls of a worker whose source could not be opened, up to its
    deferred [wg.Done()]. *)
Definition open_failed (n : Z) (e : error) (name : string) : list Event :=
  [EvOpen n (Some e); EvLog Warn (MsgOpenError name e)].

(** A worker that is past its deferred closure has closed its source once,
    as the last thing but [wg.Done()], unless the source never opened. *)
Definition closed_once (g : goroutine) (tr : list Event) : Prop :=
  match pc g with
  | PcDeferDone =>
      (∃ n e name, tr = open_failed n e name) ∨
      (∃ body err name,
         tr = body ++ closing err name ∧ Forall (λ e, ¬ is_close e) body)
  | PcExit =>
      (∃ n e name, tr = open_failed n e name ++ [EvWgDone]) ∨
      (∃ body err name,
         tr = body ++ cleanup err name ∧ Forall (λ e, ¬ is_close e) body)
  | _ => Forall (λ e, ¬ is_close e) tr
  end.

Definition is_close_done (e : Event) : Prop :=
  match e with EvCloseDone => True | _ => False end.

#[export] Instance is_close_done_dec e : Decision (is_close_done e).
Proof. destruct e; simpl; apply _. Defined.

(** The number of times the done channel was closed. *)
Definition signals (tr : list (tid * Event)) : nat :=
  length (filter (λ x, is_close_done x.2) tr).

(** The done channel is closed at most once, and is closed for good. *)
Definition one_shot (w : World) : Prop :=
  match done (eb w) with
  | ChanClosed => signals (trace w) = 1%nat
  | _ => signals (trace w) = 0%nat
  end.

(** A goroutine that has returned, its [wg.Done()] included. *)
Definition finished (g : goroutine) : bool :=
  match pc g with PcExit => true | _ => false end.

(** The number of workers that have not returned yet. *)
Definition pending (gs : list goroutine) : nat :=
  length (filter (λ g, finished g = false) gs).

(** The state of [Run] and of its wait group, for a beater [b] at entry:
    no source is added or removed, at most one worker per source is
    started, the counter is the number of workers that have not returned,
    and [Shutdown] has been called once [Run] has returned and not before;
    after it only calls of [Stop] are made. *)
Definition coordinated (b : Winlogbeat) (w : World) : Prop :=
  (length (workers w) ≤ length (eventLogs (eb w)))%nat ∧
  length (eventLogs (eb w)) = length (eventLogs b) ∧
  wg w = Z.of_nat (pending (workers w)) ∧
  match main w with
  | MainStates | MainLoop _ _ =>
      Forall (λ x, ¬ is_shutdown x.2) (trace w)
  | MainWait =>
      length (workers w) = length (eventLogs (eb w)) ∧
      Forall (λ x, ¬ is_shutdown x.2) (trace w)
  | MainShutdown =>
      length (workers w) = length (eventLogs (eb w)) ∧
      wg w = 0 ∧
      Forall (λ x, ¬ is_shutdown x.2) (trace w)
  | MainReturned =>
      length (workers w) = length (eventLogs (eb w)) ∧
      wg w = 0 ∧
      ∃ pre post,
        trace w = pre ++ (TMain, EvShutdown) :: post ∧
        Forall (λ x, ¬ is_shutdown x.2) pre ∧
        Forall (λ x, ∃ j, x.1 = TStop j ∧ ¬ is_shutdown x.2) post
  end.

(** What [Run] has loaded, for a beater [b] at entry whose store is [k0]:
    the map iterated over is the one of [k0], the sources of the workers
    not started yet are those of [b], and each worker was started with the
    entry of that map for the name of its source, or the zero value. *)
Definition loaded (b : Winlogbeat) (k0 : K) (w : World) : Prop :=
  (main w = MainStates → checkpoint (eb w) = Some k0) ∧
  (∀ k ps, main w = MainLoop k ps → ps = checkpoint.States k0) ∧
  (∀ i, (length (workers w) ≤ i)%nat →
     eventLogs (eb w) !! i = eventLogs b !! i) ∧
  (∀ i st, (TMain, EvGo i st) ∈ trace w →
     ∃ log, eventLogs b !! i = Some log ∧
       st = default checkpoint.zero
              (checkpoint.States k0 !! eventlog.Name log)).

(** The batches of records that the source has yielded: the results of the
    calls of [Read] without error that are not empty, in order. *)
Definition batches (tr : list Event) : list (list Rec) :=
  omap (λ e, match e with
             | EvRead records None =>
                 if decide (length records = 0%nat) then None else Some records
             | _ => None
             end) tr.

(** The batches of events passed to [PublishEvents], in order. *)
Definition published (tr : list Event) : list (list MapStr) :=
  omap (λ e, match e with EvPublish events _ _ => Some events | _ => None end) tr.

(** The record numbers and timestamps passed to [Persist], in order. *)
Definition persisted (tr : list Event) : list (Z * time.Time) :=
  omap (λ e, match e with EvPersist _ n ts => Some (n, ts) | _ => None end) tr.

(** The position and time of the last record of a batch. *)
Definition watermark (records : list Rec) : option (Z * time.Time) :=
  (λ r, (eventlog.RecordID r, time.UTC (eventlog.SystemTime r))) <$> last records.

(** What has been published and persisted, against what has been read, at
    each program point. *)
Definition in_order (g : goroutine) (tr : list Event) : Prop :=
  match pc g with
  | PcPublish records =>
      ∃ bs, batches tr = bs ++ [records] ∧
        published tr = map eventlog.ToMapStr <$> bs ∧
        Some <$> persisted tr = watermark <$> bs
  | PcPersist records =>
      ∃ bs, batches tr = bs ++ [records] ∧
        published tr = map eventlog.ToMapStr <$> (bs ++ [records]) ∧
        Some <$> persisted tr = watermark <$> bs
  | PcOpen _ | PcSelect | PcRead | PcSleep =>
      published tr = map eventlog.ToMapStr <$> batches tr ∧
      Some <$> persisted tr = watermark <$> batches tr
  | PcDeferClose | PcDeferDone | PcExit =>
      ∃ m1 m2, (m2 ≤ m1)%nat ∧
        published tr = map eventlog.ToMapStr <$> take m1 (batches tr) ∧
        Some <$> persisted tr = watermark <$> take m2 (batches tr)
  end.

(** ** Steps, as relations between worlds *)

(** What a step of a worker leaves as it is. *)
Record frame_worker (i : nat) (w w' : World) : Prop := {
  fw_main : main w' = main w;
  fw_stops : stops w' = stops w;
  fw_done : done (eb w') = done (eb w);
  fw_config : config (eb w') = config (eb w);
  fw_logs_length : length (eventLogs (eb w')) = length (eventLogs (eb w));
  fw_logs : ∀ j, j ≠ i → eventLogs (eb w') !! j = eventLogs (eb w) !! j;
}.

Definition moves (i : nat) (w w' : World) : Prop :=
  ∃ g g' evs,
    workers w !! i = Some g ∧
    workers w' = <[i:=g']> (workers w) ∧
    trace w' = trace w ++ (pair (TWorker i) <$> evs) ∧
    move g evs g' ∧
    frame_worker i w w'.

(** What [Run] does in one step: it starts the next worker, or it leaves the
    workers as they are. *)
Inductive Run_does (w w' : World) : Prop :=
| Run_spawns k ps log :
    main w = MainLoop k ps →
    eventLogs (eb w) !! k = Some log →
    main w' = MainLoop (Datatypes.S k) ps →
    workers w' = workers w ++
      [mkGoroutine
         (PcOpen (default checkpoint.zero (ps !! eventlog.Name log))) None] →
    wg w' = wg w + 1 →
    eb w' = eb w →
    trace w' = trace w ++ (pair TMain <$>
      [EvAdd publishedEvents (eventlog.Name log) 0;
       EvAdd ignoredEvents (eventlog.Name log) 0;
       EvWgAdd 1;
       EvGo k (default checkpoint.zero (ps !! eventlog.Name log))]) →
    Run_does w w'
| Run_states k0 :
    main w = MainStates →
    checkpoint (eb w) = Some k0 →
    main w' = MainLoop 0 (checkpoint.States k0) →
    workers w' = workers w → wg w' = wg w → eb w' = eb w →
    trace w' = trace w ++ (pair TMain <$>
      [EvStates; EvAdd publishedEvents "total" 0; EvAdd ignoredEvents "total" 0]) →
    Run_does w w'
| Run_leaves_loop k ps :
    main w = MainLoop k ps →
    eventLogs (eb w) !! k = None →
    main w' = MainWait →
    workers w' = workers w → wg w' = wg w → eb w' = eb w →
    trace w' = trace w →
    Run_does w w'
| Run_waits :
    main w = MainWait →
    wg w = 0 →
    main w' = MainShutdown →
    workers w' = workers w → wg w' = wg w → eb w' = eb w →
    trace w' = trace w ++ [(TMain, EvWgWait)] →
    Run_does w w'
| Run_shuts_down k0 :
    main w = MainShutdown →
    checkpoint (eb w) = Some k0 →
    main w' = MainReturned →
    workers w' = workers w → wg w' = wg w →
    eb w' = eb (set_checkpoint (checkpoint.Shutdown k0) w) →
    trace w' = trace w ++ [(TMain, EvShutdown)] →
    Run_does w w'
| Run_panics msg :
    (main w = MainStates ∨ main w = MainShutdown) →
    checkpoint (eb w) = None →
    w' = crash msg w →
    Run_does w w'.

(** A call of [Stop] touches the done channel and the client only. *)
Record frame_stop (j : nat) (w w' : World) : Prop := {
  fs_main : main w' = main w;
  fs_workers : workers w' = workers w;
  fs_wg : wg w' = wg w;
  fs_logs : eventLogs (eb w') = eventLogs (eb w);
  fs_checkpoint : checkpoint (eb w') = checkpoint (eb w);
  fs_trace : ∃ evs, trace w' = trace w ++ (pair (TStop j) <$> evs) ∧
               Forall (λ e, ¬ is_shutdown e) evs;
}.

(** Every worker was started by [Run], with some checkpoint state, and has
    made one of the runs of [run] since. *)
Definition started (w : World) : Prop :=
  (main w = MainStates → workers w = []) ∧
  (∀ k ps, main w = MainLoop k ps → length (workers w) = k) ∧
  (∀ i, workers w !! i = None → calls (TWorker i) w = []) ∧
  (∀ i g, workers w !! i = Some g →
     ∃ st, (TMain, EvGo i st) ∈ trace w ∧ run st g (calls (TWorker i) w)).


(** ** A beater that has been set up

    What [Setup] leaves and every step keeps: the client and the store are
    there, the done channel has been made, no worker is panicking, a closed
    done channel was closed by a call of [Stop] that is past its check, and
    the process has ended only if a call of [Stop] found the channel closed
    when another one had begun before. *)
Definition sound (w : World) : Prop :=
  is_Some (client (eb w)) ∧
  is_Some (checkpoint (eb w)) ∧
  Forall (λ g, panicking g = None) (workers w) ∧
  done (eb w) ≠ ChanNil ∧
  (done (eb w) = ChanClosed →
   ∃ j s, stops w !! j = Some s ∧ s ≠ StopCheck) ∧
  (∀ msg, crashed w = Some msg →
     msg = "close of closed channel" ∧ (2 ≤ length (stops w))%nat).

(** The number of steps that a worker at the program point [p] takes at
    most until it has returned, once the done channel is closed: from
    [Read] on, one batch is still published and persisted before the
    [select] is reached. *)
Definition rank (p : wpc) : nat :=
  match p with
  | PcRead => 6
  | PcPublish _ => 5
  | PcPersist _ | PcSleep | PcOpen _ => 4
  | PcSelect => 3
  | PcDeferClose => 2
  | PcDeferDone => 1
  | PcExit => 0
  end.

(** The number of turns that a schedule gives to worker [i]. *)
Definition turns_of (i : nat) (sched : list tid) : nat :=
  length (filter (λ t, t = TWorker i) sched).

Definition is_open (e : Event) : Prop :=
  match e with EvOpen _ _ => True | _ => False end.

(** What one call does to the store: only [Persist] and [Shutdown] are
    calls on it that change it. *)
Definition store_call (k : K) (x : tid * Event) : K :=
  match x.2 with
  | EvPersist name n ts => checkpoint.Persist name n ts k
  | EvShutdown => checkpoint.Shutdown k
  | _ => k
  end.

(** The store [k0] after the calls of a trace, in the order of the trace. *)
Definition replay (k0 : K) (tr : list (tid * Event)) : K :=
  foldl store_call k0 tr.

(** The calls of [Add] on the expvar maps, in order: map, key and amount. *)
Definition adds (tr : list Event) : list (expvarMap * string * Z) :=
  omap (λ e, match e with EvAdd m key d => Some (m, key, d) | _ => None end) tr.

(** The numbers of events of the batches that [PublishEvents] accepted. *)
Definition accepted_sizes (tr : list Event) : list Z :=
  omap (λ e, match e with
             | EvPublish events _ true => Some (Z.of_nat (length events))
             | _ => None
             end) tr.

(** What [processEventLog] adds for an accepted batch of [n] events of the
    source called [name]. *)
Definition counts (name : string) (n : Z) : list (expvarMap * string * Z) :=
  [(publishedEvents, "total", n); (publishedEvents, name, n)].

(** What one call of a worker does to its source: only [Open], [Read] and
    [Close] are calls on it that change it. *)
Definition source_call (api : S) (e : Event) : S :=
  match e with
  | EvOpen n _ => (eventlog.Open n api).2
  | EvRead _ _ => (eventlog.Read api).2
  | EvClose _ => (eventlog.Close api).2
  | _ => api
  end.

(** The source [api] after the calls [tr] of its worker. *)
Definition source_after (api : S) (tr : list Event) : S :=
  foldl source_call api tr.

(** What is to be added for the calls [tr] of a worker whose source is
    [api] when they begin: for every batch that [PublishEvents] accepted,
    the number of its events under "total" and under [api.Name()], the name
    of the source as it is when the batch is published. *)
Fixpoint counted (api : S) (tr : list Event) : list (expvarMap * string * Z) :=
  match tr with
  | [] => []
  | e :: tr =>
      match e with
      | EvPublish events _ true =>
          counts (eventlog.Name api) (Z.of_nat (length events))
      | _ => []
      end ++ counted (source_call api e) tr
  end.

(** A call of [Add] made by [Run] adds nothing, and no call of [Stop] adds;
    what the workers add goes to [publishedEvents]. *)
Definition metered (x : tid * Event) : Prop :=
  match x.2 with
  | EvAdd m key d =>
      match x.1 with
      | TMain => d = 0
      | TWorker _ => m = publishedEvents
      | TStop _ => False
      end
  | _ => True
  end.

(** ** [Config] *)

(** The kinds of path of [libbeat/paths]. *)
Inductive FileType : Type := PathHome | PathConfig | PathData | PathLogs.

(** What [Config] obtains from outside the package: the unpacking of the
    raw configuration into [eb.config], which is given the pointer as it is
    and returns it as it leaves it; the validation of the settings, called
    on that pointer; the name of the default registry file; and the
    resolution of a path against the directory of its kind. *)
Record Loader : Type := mkLoader {
  RawConfig_Unpack : option Settings → option Settings * option error;
  Settings_Validate : option Settings → result (option error);
  DefaultRegistryFile : string;
  paths_Resolve : FileType → string → string;
}.

(** The two log lines of [Config]. *)
Inductive configLog : Type :=
| LogValidated (cfg : option Settings)
| LogStateFile (file : string).

(** [Config]: the lines logged, and the beater as it is left with the
    error, if the call returns. *)
Definition Config (l : Loader) (eb : Winlogbeat)
  : list configLog * result (Winlogbeat * option error) :=
  (* err := b.RawConfig.Unpack(&eb.config) *)
  let '(cfg, err) := RawConfig_Unpack l (config eb) in
  let eb1 := {| config := cfg; eventLogs := eventLogs eb; done := done eb;
                client := client eb; checkpoint := checkpoint eb |} in
  match err with
  | Some e => ([], Ok (eb1, Some ("Error reading configuration file. " +:+ e)))
  | None =>
      (* err = eb.config.Validate() *)
      match Settings_Validate l cfg with
      | Panic msg => ([], Panic msg)
      | Ok (Some e) =>
          ([], Ok (eb1, Some ("Error validating configuration file. " +:+ e)))
      | Ok None =>
          match cfg with
          | None => ([LogValidated cfg], Panic "nil pointer dereference")
          | Some s =>
              (* Registry file grooming. *)
              let file :=
                if decide (RegistryFile s = "") then DefaultRegistryFile l
                else RegistryFile s in
              let file := paths_Resolve l PathData file in
              ([LogValidated cfg; LogStateFile file],
               Ok ({| config := Some {| RegistryFile := file;
                                        Metrics_BindAddress := Metrics_BindAddress s;
                                        EventLogs := EventLogs s |};
                      eventLogs := eventLogs eb; done := done eb;
                      client := client eb; checkpoint := checkpoint eb |},
                   None))
          end
      end
  end.

(** ** [uptime] *)

(** The values of the map that [uptime] returns. *)
Inductive value : Type :=
| VTime (t : time.Time)
| VString (s : string).

(** [t.Sub(u)]: a Duration, which is an int64 of nanoseconds; the
    difference saturates at the ends of its range. *)
Definition time_Sub (t u : time.Time) : Z :=
  let d := time.wall t - time.wall u in
  if decide (d < - 2 ^ 63) then - 2 ^ 63
  else if decide (2 ^ 63 - 1 < d) then 2 ^ 63 - 1
  else d.

(** [time.Microsecond], a Duration in nanoseconds. *)
Definition time_Microsecond : Z := 1000.

(** [uptime], for the start time of the package and the reading of the
    clock; [Duration_String] stands for the method [String] of a Duration.
    Division on int64 rounds towards zero, and the verb [%d] prints the
    decimal digits with a minus sign for a negative number. *)
Definition uptime (Duration_String : Z → string) (startTime clock : time.Time)
  : gmap string value :=
  let now := time.UTC clock in
  let uptimeDur := time_Sub now startTime in
  {[ "start_time" := VTime startTime;
     "uptime" := VString (Duration_String uptimeDur);
     "uptime_ms" := VString (pretty.pretty (uptimeDur `quot` time_Microsecond));
     "server_time" := VTime now ]}.

(** What a worker has just done when it is about to read, to sleep or to
    publish: the last calls it made. *)
Definition poised (g : goroutine) (tr : list Event) : Prop :=
  match pc g with
  | PcRead => ∃ pre, tr = pre ++ [EvSelect false]
  | PcSleep =>
      ∃ pre name,
        tr = pre ++ [EvRead [] None; EvLog Debug (MsgReadReturned name 0)]
  | PcPublish records =>
      records ≠ [] ∧
      ∃ pre name,
        tr = pre ++ [EvRead records None;
                     EvLog Debug (MsgReadReturned name (length records))]
  | _ => True
  end.
End beater.
End beater.

(** ** Scripted collaborators

    Executable instances of the three interfaces, to run the beater on
    concrete inputs. *)

Module script.

(** An event record: identifier, creation time and message. *)
Record rec : Type := mkRec { id : Z; created : time.Time; body : string }.

Definition mapstr : Type := list (string * string).

#[export] Instance rec_record : eventlog.Record rec mapstr := {|
  eventlog.RecordID := id;
  eventlog.SystemTime := created;
  eventlog.ToMapStr := λ r, [("message", body r)];
|}.

(** A source that answers from a script: the outcome of [Open], the
    outcomes of the successive calls of [Read] (empty batches once the
    script is used up) and the outcome of [Close]. *)
Record source : Type := mkSource {
  name : string;
  open_result : option error;
  reads : list (list rec * option error);
  close_result : option error;
  opened_at : option Z;
  closes : nat;
}.

#[export] Instance source_eventlog : eventlog.EventLog rec source := {|
  eventlog.Open := λ n s,
    (open_result s,
     {| name := name s; open_result := open_result s; reads := reads s;
        close_result := close_result s; opened_at := Some n;
        closes := closes s |});
  eventlog.Read := λ s,
    match reads s with
    | [] => (([], None), s)
    | r :: rest =>
        (r, {| name := name s; open_result := open_result s; reads := rest;
               close_result := close_result s; opened_at := opened_at s;
               closes := closes s |})
    end;
  eventlog.Close := λ s,
    (close_result s,
     {| name := name s; open_result := open_result s; reads := reads s;
        close_result := close_result s; opened_at := opened_at s;
        closes := Datatypes.S (closes s) |});
  eventlog.Name := name;
|}.

(** A client that accepts every batch until it is closed. *)
Record sink : Type := mkSink { closed : bool; accepted : list (list mapstr) }.

#[export] Instance sink_client : publisher.Client mapstr sink := {|
  publisher.PublishEvents := λ events _ c,
    if closed c then (false, c)
    else (true, {| closed := false; accepted := accepted c ++ [events] |});
  publisher.Close := λ c, {| closed := true; accepted := accepted c |};
|}.

(** Modelled from the spec: the checkpoint store, which is not part of the
    sources at hand, as its in-memory mapping from source name to
    checkpoint state, with the number of calls of [Shutdown]. *)
Record store : Type := mkStore {
  states : gmap string checkpoint.EventLogState;
  shutdowns : nat;
}.

#[export] Instance store_checkpoint : checkpoint.Checkpoint store := {|
  checkpoint.States := states;
  checkpoint.Persist := λ name n ts k,
    {| states := <[name := {| checkpoint.Name := name;
                              checkpoint.RecordNumber := n;
                              checkpoint.Timestamp := ts |}]> (states k);
       shutdowns := shutdowns k |};
  checkpoint.Shutdown := λ k,
    {| states := states k; shutdowns := Datatypes.S (shutdowns k) |};
|}.

Definition at_ (n : Z) : time.Time := {| time.wall := n; time.loc := Some "Local" |}.

Definition rec_ (n : Z) : rec := {| id := n; created := at_ (100 * n); body := "m" |}.

(** A source named [nm] that opens and yields the given batches. *)
Definition yields (nm : string) (batches : list (list rec * option error)) : source :=
  {| name := nm; open_result := None; reads := batches; close_result := None;
     opened_at := None; closes := 0 |}.

(** A source named [nm] that cannot be opened. *)
Definition unopenable (nm : string) : source :=
  {| name := nm; open_result := Some "access denied"; reads := [];
     close_result := None; opened_at := None; closes := 0 |}.

(** A beater after a successful [Setup] over the given sources and store. *)
Definition beat (logs : list source) (k : store)
  : beater.Winlogbeat (S:=source) (C:=sink) (K:=store) (Cfg:=string) :=
  {| beater.config := Some {| beater.RegistryFile := ".winlogbeat.yml";
                              beater.Metrics_BindAddress := "";
                              beater.EventLogs := name <$> logs |};
     beater.eventLogs := logs;
     beater.done := ChanOpen;
     beater.client := Some {| closed := false; accepted := [] |};
     beater.checkpoint := Some k |}.

Definition empty_store : store := {| states := ∅; shutdowns := 0 |}.

(** [n] turns of goroutine [t]. *)
Definition turns (n : nat) (t : tid) : list tid := replicate n t.

(** A source as [Open] with record number [n] leaves it. *)
Definition opened (n : Z) (s : source) : source :=
  {| name := name s; open_result := open_result s; reads := reads s;
     close_result := close_result s; opened_at := Some n; closes := closes s |}.

(** A source after [n] further calls of [Read]. *)
Definition read_ (n : nat) (s : source) : source :=
  {| name := name s; open_result := open_result s; reads := drop n (reads s);
     close_result := close_result s; opened_at := opened_at s;
     closes := closes s |}.

(** The client after it has accepted the given batches. *)
Definition accepting (batches : list (list rec)) : sink :=
  {| closed := false; accepted := map eventlog.ToMapStr <$> batches |}.

(** What [Setup] is given: a client, a store that is empty, no metrics
    endpoint, and for each configured name a source with nothing to read. *)
Definition env : beater.Beat (S:=source) (C:=sink) (K:=store) (Cfg:=string) :=
  {| beater.Publisher_Connect := accepting [];
     beater.NewCheckpoint := λ _ _ _, inl empty_store;
     beater.net_Listen := λ _ _, None;
     beater.eventlog_New := λ nm, inl (yields nm []) |}.

(** The beater after [Config], for one event log named "App". *)
Definition configured
  : beater.Winlogbeat (S:=source) (C:=sink) (K:=store) (Cfg:=string) :=
  {| beater.config := Some {| beater.RegistryFile := ".winlogbeat.yml";
                              beater.Metrics_BindAddress := "";
                              beater.EventLogs := ["App"] |};
     beater.eventLogs := []; beater.done := ChanNil;
     beater.client := None; beater.checkpoint := None |}.

(** The beater that [Setup] makes of [configured] in [env]. *)
Definition ready : beater.Winlogbeat (S:=source) (C:=sink) (K:=store) (Cfg:=string) :=
  beat [yields "App" []] empty_store.

(** The source "App" of the first scenario: the batches [1,2] and [3], and
    then no record any more. *)
Definition app_beat : beater.Winlogbeat (S:=source) (C:=sink) (K:=store) (Cfg:=string) :=
  beat [yields "App" [([rec_ 1; rec_ 2], None); ([rec_ 3], None)]] empty_store.

(** [Run] starts the worker, which publishes both batches and polls once
    more; then [Stop] is called, the worker leaves and [Run] returns. *)
Definition app_schedule : list tid :=
  turns 3 TMain ++ turns 12 (TWorker 0) ++ turns 3 (TStop 0) ++
  turns 5 (TWorker 0) ++ turns 3 TMain.

Definition app_source : source :=
  yields "App" [([rec_ 1; rec_ 2], None); ([rec_ 3], None)].

(** The first scenario when the worker is about to read for the first,
    and for the third time. *)
Definition app_first_read : list tid := turns 3 TMain ++ turns 2 (TWorker 0).
Definition app_third_read : list tid := turns 3 TMain ++ turns 10 (TWorker 0).

(** The second scenario: a third batch [4,5] has been read when [Stop] is
    called; the client is closed when the worker publishes it. *)
Definition late_beat : beater.Winlogbeat (S:=source) (C:=sink) (K:=store) (Cfg:=string) :=
  beat [yields "App" [([rec_ 1; rec_ 2], None); ([rec_ 3], None);
                      ([rec_ 4; rec_ 5], None)]] empty_store.

Definition late_schedule : list tid :=
  turns 3 TMain ++ turns 11 (TWorker 0) ++ turns 3 (TStop 0).

(** The third scenario: "App" cannot be opened and "Sys" can; and a source
    whose second read fails. *)
Definition two_beat : beater.Winlogbeat (S:=source) (C:=sink) (K:=store) (Cfg:=string) :=
  beat [unopenable "App"; yields "Sys" [([rec_ 7], None)]] empty_store.

Definition two_schedule : list tid := turns 4 TMain ++ [TWorker 0].

Definition failing_beat : beater.Winlogbeat (S:=source) (C:=sink) (K:=store) (Cfg:=string) :=
  beat [yields "App" [([rec_ 1], None); ([], Some "read failed")]] empty_store.

Definition failing_schedule : list tid :=
  turns 3 TMain ++ turns 9 (TWorker 0) ++ turns 3 TMain.


(** What [Setup] is given when no event log can be made for the channel
    "Sec". *)
Definition picky : beater.Beat (S:=source) (C:=sink) (K:=store) (Cfg:=string) :=
  {| beater.Publisher_Connect := accepting [];
     beater.NewCheckpoint := λ _ _ _, inl empty_store;
     beater.net_Listen := λ _ _, None;
     beater.eventlog_New := λ nm,
       if decide (nm = "Sec") then inr "no such channel"
       else inl (yields nm []) |}.

(** The settings for the three event logs "App", "Sec" and "Sys". *)
Definition three_logs : beater.Settings (Cfg:=string) :=
  {| beater.RegistryFile := ".winlogbeat.yml";
     beater.Metrics_BindAddress := "";
     beater.EventLogs := ["App"; "Sec"; "Sys"] |}.

Definition three_configured
  : beater.Winlogbeat (S:=source) (C:=sink) (K:=store) (Cfg:=string) :=
  {| beater.config := Some three_logs;
     beater.eventLogs := []; beater.done := ChanNil;
     beater.client := None; beater.checkpoint := None |}.

(** The beater that [Setup] leaves when it fails at "Sec". *)
Definition half_ready
  : beater.Winlogbeat (S:=source) (C:=sink) (K:=store) (Cfg:=string) :=
  {| beater.config := Some three_logs;
     beater.eventLogs := [yields "App" []];
     beater.done := ChanOpen;
     beater.client := Some (accepting []);
     beater.checkpoint := Some empty_store |}.

(** [Stop] is called twice while the worker of the first scenario has
    not been given a turn. *)
Definition double_stop : list tid :=
  turns 3 TMain ++ turns 2 (TStop 0) ++ turns 2 (TStop 1).

(** The first scenario up to the return of the call of [Stop], and the
    turns of the worker after it. *)
Definition app_stopped : list tid :=
  turns 3 TMain ++ turns 12 (TWorker 0) ++ turns 3 (TStop 0).

Definition app_last_turns : list tid := turns 5 (TWorker 0).

(** A store that holds record 2 for "App", and a beater that resumes
    from it. *)
Definition stored : store :=
  {| states := {["App" := {| checkpoint.Name := "App";
                             checkpoint.RecordNumber := 2;
                             checkpoint.Timestamp := time.UTC (at_ 200) |}]};
     shutdowns := 0 |}.

Definition resumed_beat
  : beater.Winlogbeat (S:=source) (C:=sink) (K:=store) (Cfg:=string) :=
  beat [yields "App" [([rec_ 3], None)]] stored.

Definition resumed_schedule : list tid := turns 3 TMain ++ turns 4 (TWorker 0).

(** A raw configuration with one event log and no registry file. *)
Definition loader : beater.Loader (Cfg:=string) :=
  {| beater.RawConfig_Unpack := λ _,
       (Some {| beater.RegistryFile := "";
                beater.Metrics_BindAddress := "";
                beater.EventLogs := ["App"] |}, None);
     beater.Settings_Validate := λ _, Ok None;
     beater.DefaultRegistryFile := ".winlogbeat.yml";
     beater.paths_Resolve := λ _ path, "data/" +:+ path |}.

(** A new beater. *)
Definition fresh
  : beater.Winlogbeat (S:=source) (C:=sink) (K:=store) (Cfg:=string) :=
  beater.New.

(** The beater that [Config] makes of a new one with [loader]. *)
Definition loaded_beat
  : beater.Winlogbeat (S:=source) (C:=sink) (K:=store) (Cfg:=string) :=
  {| beater.config := Some {| beater.RegistryFile := "data/.winlogbeat.yml";
                              beater.Metrics_BindAddress := "";
                              beater.EventLogs := ["App"] |};
     beater.eventLogs := []; beater.done := ChanNil;
     beater.client := None; beater.checkpoint := None |}.

(** The second scenario after the turn in which the publish is refused. *)
Definition late_refused : list tid := late_schedule ++ [TWorker 0].

(** The first scenario when the worker has returned and [Run] waits. *)
Definition app_workers_done : list tid := app_stopped ++ app_last_turns.

(** The store of the first scenario after both batches. *)
Definition app_store : store :=
  checkpoint.Persist "App" 3 (time.mkTime 300 None)
    (checkpoint.Persist "App" 2 (time.mkTime 200 None) empty_store).
End script.

(** ** Properties *)

Section properties.
Context {Rec MapStr S C K Cfg : Type}.
Context `{!eventlog.Record Rec MapStr, !eventlog.EventLog Rec S,
          !publisher.Client MapStr C, !checkpoint.Checkpoint K}.
Import beater.

Abbreviation World := (World (Rec:=Rec) (MapStr:=MapStr) (S:=S) (C:=C) (K:=K) (Cfg:=Cfg)).
Abbreviation Winlogbeat := (Winlogbeat (S:=S) (C:=C) (K:=K) (Cfg:=Cfg)).
Abbreviation Event := (Event Rec MapStr).
Abbreviation goroutine := (goroutine (Rec:=Rec)).
Abbreviation init := (init (Rec:=Rec) (MapStr:=MapStr)).

Implicit Types (w : World) (b : Winlogbeat) (t : tid) (i j : nat)
  (g : goroutine) (gs : list goroutine) (tr evs : list Event)
  (sched : list tid).

(** *** Schedules *)

#[local] Arguments exec : simpl never.
#[local] Arguments tick : simpl never.

Lemma exec_snoc sched t w : exec (sched ++ [t]) w = tick (exec sched w) t.
Proof. unfold exec. by rewrite foldl_app. Qed.

Lemma exec_nil w : exec [] w = w.
Proof. done. Qed.

Lemma exec_cons t sched w : exec (t :: sched) w = exec sched (tick w t).
Proof. done. Qed.

Lemma exec_app sched1 sched2 w :
  exec (sched1 ++ sched2) w = exec sched2 (exec sched1 w).
Proof. unfold exec. by rewrite foldl_app. Qed.

(** A property of the initial world that every step keeps holds after every
    schedule. *)
Lemma exec_invariant (P : World → Prop) b :
  P (init b) →
  (∀ w t w', P w → crashed w = None → step t w = Some w' → P w') →
  ∀ sched, P (exec sched (init b)).
Proof.
  intros Hinit Hstep sched. induction sched as [|t sched IH] using rev_ind.
  - exact Hinit.
  - rewrite exec_snoc. unfold tick.
    destruct (step t (exec sched (init b))) as [w'|] eqn:E; [|exact IH].
    apply (Hstep (exec sched (init b)) t); [exact IH| |exact E].
    unfold step in E. by destruct (crashed _).
Qed.

(** *** The calls of a goroutine *)

Lemma calls_app t w (l : list (tid * Event)) w' :
  trace w' = trace w ++ l → calls t w' = calls t w ++ (filter (λ x, x.1 = t) l).*2.
Proof. unfold calls. intros ->. by rewrite filter_app, fmap_app. Qed.

Lemma calls_own t evs :
  (filter (λ x : tid * Event, x.1 = t) (pair t <$> evs)).*2 = evs.
Proof.
  induction evs as [|e evs IH]; [done|].
  rewrite fmap_cons, filter_cons_True by done. by rewrite fmap_cons, IH.
Qed.

Lemma calls_other t t' evs :
  t' ≠ t → (filter (λ x : tid * Event, x.1 = t) (pair t' <$> evs)).*2 = [].
Proof.
  intros Hne. induction evs as [|e evs IH]; [done|].
  rewrite fmap_cons, filter_cons_False by done. exact IH.
Qed.

Lemma alter_insert {A} (f : A → A) (l : list A) i x :
  l !! i = Some x → alter f i l = <[i:=f x]> l.
Proof.
  intros Hx. apply list_eq. intros j. destruct (decide (i = j)) as [->|Hne].
  - rewrite list_lookup_alter_eq, Hx, list_lookup_insert_eq; [done|].
    by eapply lookup_lt_Some.
  - by rewrite list_lookup_alter_ne, list_lookup_insert_ne.
Qed.

(** *** Every step is a move *)

Ltac no_such_call :=
  repeat first [apply Forall_nil | apply Forall_cons; split; [simpl; tauto|]].

Ltac step_cases :=
  repeat match goal with
    | H : context [match ?x with _ => _ end] |- _ =>
        let E := fresh "E" in destruct x eqn:E; simpl in H
    | H : Some _ = Some _ |- _ => injection H as H; subst
    | H : None = Some _ |- _ => discriminate H
    | H : context [decide ?P] |- _ => destruct (decide P); simpl in H
    end.

Lemma frame_worker_intro i w w' :
  main w' = main w → stops w' = stops w → done (eb w') = done (eb w) →
  config (eb w') = config (eb w) →
  (eventLogs (eb w') = eventLogs (eb w) ∨
   ∃ api, eventLogs (eb w') = <[i:=api]> (eventLogs (eb w))) →
  frame_worker i w w'.
Proof.
  intros ???? [Hl|[api Hl]]; split; try done; rewrite Hl; try done.
  - apply length_insert.
  - intros j Hne. by apply list_lookup_insert_ne.
Qed.

Lemma moves_intro i w w' g g' evs :
  workers w !! i = Some g →
  move g evs g' →
  workers w' = alter (λ _, g') i (workers w) →
  trace w' = trace w ++ (pair (TWorker i) <$> evs) →
  frame_worker i w w' →
  moves i w w'.
Proof.
  intros Hg Hm Hw Ht Hf. exists g, g', evs. split_and!; try done.
  rewrite Hw. exact (alter_insert (λ _, g') _ _ _ Hg).
Qed.

Lemma alter_const {A} (f : A → A) (l : list A) i x y :
  l !! i = Some x → f x = y → alter f i l = alter (λ _, y) i l.
Proof.
  intros Hx Hf. by rewrite !(alter_insert _ _ _ _ Hx), Hf.
Qed.

Lemma processEventLog_moves i w w' :
  processEventLog i w = Some w' → moves i w w'.
Proof.
  unfold processEventLog. intros Hstep.
  destruct (workers w !! i) as [[p pn]|] eqn:Hg; [|done].
  destruct (eventLogs (eb w) !! i) as [api|] eqn:Hapi; [|done].
  simpl in Hstep.
  destruct p; simpl in Hstep; step_cases.
  all: solve [eapply moves_intro;
     [ eassumption
     | econstructor; eauto
     | unfold goto, throw; simpl; eapply alter_const; [eassumption|reflexivity]
     | simpl; rewrite <-?(assoc_L (++)), ?app_nil_r; simpl; reflexivity
     | apply frame_worker_intro; simpl; by eauto ]].
Qed.

(** *** What the other goroutines leave as it is *)

Lemma calls_emit t t' (e : Event) w :
  calls t (emit t' e w) = calls t w ++ (if decide (t' = t) then [e] else []).
Proof.
  unfold calls. simpl. rewrite filter_app, fmap_app. f_equal.
  destruct (decide (t' = t)) as [->|Hne].
  - by rewrite filter_cons_True.
  - by rewrite filter_cons_False.
Qed.

Lemma calls_moves i t w w' :
  moves i w w' → t ≠ TWorker i → calls t w' = calls t w.
Proof.
  intros (g & g' & evs & _ & _ & Ht & _) Hne.
  rewrite (calls_app _ _ _ _ Ht), calls_other, app_nil_r; done.
Qed.

Lemma calls_moves_own i w w' :
  moves i w w' →
  ∃ g g' evs, workers w !! i = Some g ∧ workers w' !! i = Some g' ∧
    move g evs g' ∧ calls (TWorker i) w' = calls (TWorker i) w ++ evs.
Proof.
  intros (g & g' & evs & Hg & Hw & Ht & Hm & _). exists g, g', evs.
  split_and!; try done.
  - rewrite Hw. apply list_lookup_insert_eq. by eapply lookup_lt_Some.
  - by rewrite (calls_app _ _ _ _ Ht), calls_own.
Qed.

Lemma workers_moves_other i j w w' :
  moves i w w' → j ≠ i → workers w' !! j = workers w !! j.
Proof.
  intros (g & g' & evs & _ & Hw & _) Hne. rewrite Hw.
  by apply list_lookup_insert_ne.
Qed.

Lemma workers_moves_length i w w' :
  moves i w w' → length (workers w') = length (workers w).
Proof. intros (g & g' & evs & _ & -> & _). apply length_insert. Qed.

Lemma Run_step w w' : Run w = Some w' → Run_does w w'.
Proof.
  unfold Run. intros Hstep.
  destruct (main w) as [|k ps| | |] eqn:Hmain.
  - destruct (checkpoint (eb w)) as [k0|] eqn:Hk; simplify_eq.
    + eapply (Run_states _ _ k0); simpl; rewrite <-?(assoc_L (++)); by eauto.
    + eapply (Run_panics _ _ "nil pointer dereference"); by eauto.
  - destruct (eventLogs (eb w) !! k) as [log|] eqn:Hlog; simplify_eq.
    + eapply (Run_spawns _ _ k ps log); simpl;
        rewrite <-?(assoc_L (++)); by eauto.
    + eapply (Run_leaves_loop _ _ k ps); simpl; by eauto.
  - destruct (decide (wg w = 0)); simplify_eq.
    eapply Run_waits; simpl; by eauto.
  - destruct (checkpoint (eb w)) as [k0|] eqn:Hk; simplify_eq.
    + eapply (Run_shuts_down _ _ k0); simpl; by eauto.
    + eapply (Run_panics _ _ "nil pointer dereference"); by eauto.
  - done.
Qed.

Lemma stopping_step j w w' : stopping j w = Some w' → frame_stop j w w'.
Proof.
  unfold stopping. intros Hstep. step_cases; split; simpl; try done.
  all: try (exists []; split; [by rewrite app_nil_r|constructor]).
  all: eexists [_]; split; [done|]; by no_such_call.
Qed.

Lemma calls_stopping j t w w' :
  stopping j w = Some w' → t ≠ TStop j → calls t w' = calls t w.
Proof.
  intros [_ _ _ _ _ (evs & Ht & _)]%stopping_step Hne.
  rewrite (calls_app _ _ _ _ Ht), calls_other, app_nil_r; done.
Qed.

Lemma Run_trace w w' :
  Run_does w w' → ∃ evs, trace w' = trace w ++ (pair TMain <$> evs).
Proof.
  intros [| | | | |msg _ _ ->]; try (by eexists).
  - exists []. by rewrite app_nil_r.
  - by exists [EvWgWait].
  - by exists [EvShutdown].
  - exists []. by rewrite app_nil_r.
Qed.

Lemma calls_Run t w w' : Run w = Some w' → t ≠ TMain → calls t w' = calls t w.
Proof.
  intros [evs Ht]%Run_step%Run_trace Hne.
  rewrite (calls_app _ _ _ _ Ht), calls_other, app_nil_r; done.
Qed.

(** *** Every worker makes a run *)

Lemma started_init b : started (init b).
Proof. split_and!; try done. Qed.

Lemma started_step w t w' :
  started w → step t w = Some w' → started w'.
Proof.
  intros (Hs & Hl & Hn & Hr) Hstep. unfold step in Hstep.
  destruct (crashed w); [done|]. destruct t as [|j|j].
  - (* Run *)
    apply Run_step in Hstep as Hrun.
    assert (∀ i, calls (TWorker i) w' = calls (TWorker i) w) as Hcalls.
    { intros i. by eapply calls_Run. }
    destruct Hrun as [k ps log Hm Hlog Hm' Hw Hwg Heb Ht|k0 Hm Hk Hm' Hw Hwg Heb Ht
                     |k ps Hm Hlog Hm' Hw Hwg Heb Ht|Hm Hz Hm' Hw Hwg Heb Ht
                     |k0 Hm Hk Hm' Hw Hwg Heb Ht|msg Hm Hk ->].
    + specialize (Hl _ _ Hm). split_and!.
      * by rewrite Hm'.
      * intros k' ps'. rewrite Hm'. intros [= <- <-].
        rewrite Hw, length_app. simpl. lia.
      * intros i. rewrite Hw, Hcalls. intros Hi. apply Hn.
        apply lookup_ge_None. apply lookup_ge_None in Hi.
        rewrite length_app in Hi. lia.
      * intros i g. rewrite Hw, Hcalls. intros Hi.
        apply lookup_app_Some in Hi as [Hi|[Hge Hi]].
        -- destruct (Hr _ _ Hi) as (st & Hgo & Hrun). exists st. split; [|done].
           rewrite Ht. set_solver.
        -- rewrite Hl in *. destruct (i - k)%nat as [|n] eqn:Hik; [|done].
           assert (i = k) as -> by lia. simpl in Hi. injection Hi as <-.
           eexists. split.
           ++ rewrite Ht. apply elem_of_app. right. simpl.
              do 3 apply list_elem_of_further. apply list_elem_of_here.
           ++ rewrite Hn; [constructor|]. apply lookup_ge_None. lia.
    + split_and!.
      * by rewrite Hm'.
      * intros k' ps'. rewrite Hm', Hw. intros [= <- <-]. by rewrite (Hs Hm).
      * intros i. rewrite Hw, Hcalls. apply Hn.
      * intros i g. rewrite Hw, Hcalls. intros Hi.
        destruct (Hr _ _ Hi) as (st & Hgo & Hrun). exists st. split; [|done].
        rewrite Ht. set_solver.
    + split_and!; try (by rewrite Hm').
      * intros i. rewrite Hw, Hcalls. apply Hn.
      * intros i g. rewrite Hw, Hcalls, Ht. by apply Hr.
    + split_and!; try (by rewrite Hm').
      * intros i. rewrite Hw, Hcalls. apply Hn.
      * intros i g. rewrite Hw, Hcalls. intros Hi.
        destruct (Hr _ _ Hi) as (st & Hgo & Hrun). exists st. split; [|done].
        rewrite Ht. set_solver.
    + split_and!; try (by rewrite Hm').
      * intros i. rewrite Hw, Hcalls. apply Hn.
      * intros i g. rewrite Hw, Hcalls. intros Hi.
        destruct (Hr _ _ Hi) as (st & Hgo & Hrun). exists st. split; [|done].
        rewrite Ht. set_solver.
    + split_and!; try done.
  - (* processEventLog *)
    apply processEventLog_moves in Hstep as Hmv.
    pose proof Hmv as (g0 & g0' & evs0 & Hg0 & Hw & Ht & Hm & [Hmain _ _ _ _ _]).
    split_and!.
    + rewrite Hmain. intros Hm'. rewrite (Hs Hm') in Hg0. done.
    + intros k ps. rewrite Hmain, (workers_moves_length _ _ _ Hmv). apply Hl.
    + intros i Hi. destruct (decide (i = j)) as [->|Hne].
      * rewrite Hw in Hi. apply lookup_ge_None in Hi.
        rewrite length_insert in Hi. apply lookup_lt_Some in Hg0. lia.
      * rewrite (calls_moves _ _ _ _ Hmv) by congruence. apply Hn.
        by rewrite <-(workers_moves_other _ _ _ _ Hmv).
    + intros i g Hi. destruct (decide (i = j)) as [->|Hne].
      * destruct (calls_moves_own _ _ _ Hmv) as (g1 & g1' & evs & Hg1 & Hg1' & Hmove & ->).
        rewrite Hi in Hg1'. injection Hg1' as <-.
        destruct (Hr _ _ Hg1) as (st & Hgo & Hrun). exists st. split.
        -- rewrite Ht. set_solver.
        -- by eapply run_move.
      * rewrite (workers_moves_other _ _ _ _ Hmv) in Hi by done.
        rewrite (calls_moves _ _ _ _ Hmv) by congruence.
        destruct (Hr _ _ Hi) as (st & Hgo & Hrun). exists st. split; [|done].
        rewrite Ht. set_solver.
  - (* Stop *)
    assert (∀ i, calls (TWorker i) w' = calls (TWorker i) w) as Hcalls.
    { intros i. by eapply calls_stopping. }
    apply stopping_step in Hstep as [Hmain Hw Hwg Hlogs Hk (evs & Ht & _)].
    split_and!.
    + by rewrite Hmain, Hw.
    + by rewrite Hmain, Hw.
    + intros i. rewrite Hw, Hcalls. apply Hn.
    + intros i g. rewrite Hw, Hcalls. intros Hi.
      destruct (Hr _ _ Hi) as (st & Hgo & Hrun). exists st. split; [|done].
      rewrite Ht. set_solver.
Qed.

Lemma started_exec b sched : started (exec sched (init b)).
Proof.
  apply exec_invariant; [apply started_init|].
  intros w t w' Hw _ Hstep. by eapply started_step.
Qed.

(** The calls of worker [i] are those of a run of [processEventLog]. *)
Lemma worker_runs b sched i :
  ∃ st g, run st g (calls (TWorker i) (exec sched (init b))) ∧
    (workers (exec sched (init b)) !! i = Some g ∨
     workers (exec sched (init b)) !! i = None ∧
     calls (TWorker i) (exec sched (init b)) = []).
Proof.
  destruct (started_exec b sched) as (_ & _ & Hn & Hr).
  destruct (workers (exec sched (init b)) !! i) as [g|] eqn:Hg.
  - destruct (Hr _ _ Hg) as (st & _ & Hrun). exists st, g. eauto.
  - exists checkpoint.zero, (mkGoroutine (PcOpen checkpoint.zero) None).
    rewrite (Hn _ Hg). split; [constructor|by right].
Qed.

(** *** Lists of calls *)

Lemma split_snoc {A} (l1 l2 pre post : list A) x :
  l1 ++ l2 = pre ++ x :: post →
  (∃ post', l1 = pre ++ x :: post' ∧ post = post' ++ l2) ∨
  (∃ k, pre = l1 ++ k ∧ l2 = k ++ x :: post).
Proof.
  intros [(k & -> & Hk)|(k & -> & ->)]%app_eq_inv; [|by eauto].
  destruct k as [|y k]; simpl in Hk.
  - right. exists []. subst l2. by rewrite !app_nil_r.
  - injection Hk as <- ->. left. by eauto.
Qed.

Lemma in_middle {A} (k post : list A) x l : l = k ++ x :: post → x ∈ l.
Proof. intros ->. set_solver. Qed.

(** Closes a goal whose hypothesis puts a call in a list of calls of other
    kinds. *)
Ltac absurd_call :=
  match goal with
  | H : ?evs = _ ++ _ :: _ |- _ =>
      apply in_middle in H;
      repeat (apply elem_of_cons in H as [H|H]; [discriminate H|]);
      by apply elem_of_nil in H
  end.

(** *** No checkpoint without an acknowledged publish *)

Lemma run_persist st g tr :
  run st g tr →
  (∀ records, pc g = PcPersist records → acknowledged records tr) ∧
  (∀ pre name n ts post,
     tr = pre ++ EvPersist name n ts :: post →
     ∃ records r,
       acknowledged records pre ∧ last records = Some r ∧
       n = eventlog.RecordID r ∧ ts = time.UTC (eventlog.SystemTime r)).
Proof.
  induction 1 as [|g evs g' tr Hrun [IHpc IHtr] Hmove].
  - split; [done|]. intros pre ???? Hnil. by destruct pre.
  - split.
    + intros records' Hpc. destruct Hmove; simplify_eq/=.
      eexists tr, _. split; [reflexivity|]. repeat constructor.
    + intros pre name' n ts post [(post' & -> & ->)|(k & -> & Hk)]%split_snoc.
      { by eapply IHtr. }
      destruct Hmove; try absurd_call.
      destruct k as [|? [|? ?]]; simplify_eq/=.
      exists records, r. rewrite app_nil_r. split_and!; try done.
      by apply IHpc.
Qed.

(** C1: a call of Persist by a worker comes only after the call of
    PublishEvents for a batch has returned true, with nothing but
    bookkeeping in between, and it carries the identifier and the (UTC)
    creation time of the last record of that very batch. *)
Theorem C1_persist_only_after_acknowledged_publish b sched i pre name n ts post :
  calls (TWorker i) (exec sched (init b)) = pre ++ EvPersist name n ts :: post →
  ∃ records r,
    acknowledged records pre ∧ last records = Some r ∧
    n = eventlog.RecordID r ∧ ts = time.UTC (eventlog.SystemTime r).
Proof.
  destruct (worker_runs b sched i) as (st & g & Hrun & _).
  by apply (run_persist _ _ _ Hrun).
Qed.

(** *** Leaving the loop *)

Lemma leaving_move g evs g' tr :
  leaving g tr → move g evs g' → leaving g' (tr ++ evs).
Proof.
  unfold leaving. intros Hl Hmove.
  destruct Hmove; simpl in *; try done; subst; simpl.
  - by exists None, "".
  - by eexists (Some _), _.
  - destruct Hl as (err & name & ->). by exists err, name.
Qed.

Lemma run_leaves st g tr :
  run st g tr →
  ∀ pre e tail0 post,
    tr = pre ++ e :: post → leaves e tail0 →
    ∃ tail rest, leaves e tail ∧ post = tail ++ rest ∧ leaving g rest.
Proof.
  induction 1 as [|g evs g' tr Hrun IH Hmove].
  - intros pre ??? Hnil. by destruct pre.
  - intros pre e tail0 post [(post' & -> & ->)|(k & -> & Hk)]%split_snoc Hl.
    + destruct (IH _ _ _ _ eq_refl Hl) as (tail & rest & Hl' & -> & Hrest).
      exists tail, (rest ++ evs). split_and!; [done|by rewrite (assoc_L (++))|].
      by eapply leaving_move.
    + destruct Hl; destruct Hmove; try absurd_call.
      all: destruct k as [|? [|? [|? [|? ?]]]]; simplify_eq/=.
      all: eexists _, []; split_and!; [constructor|reflexivity|done].
Qed.

Lemma leaving_prefix g tr :
  leaving g tr → ∃ err name, tr `prefix_of` cleanup err name.
Proof.
  unfold leaving. destruct (pc g); try done.
  - intros ->. exists None, "". apply prefix_nil.
  - intros (err & name & ->). exists err, name. by apply prefix_app_r.
  - intros (err & name & ->). by exists err, name.
Qed.

Lemma cleanup_no_persist err name (e : Event) : e ∈ cleanup err name → ¬ is_persist e.
Proof.
  unfold cleanup, closing. destruct err; simpl; intros He;
    repeat (apply elem_of_cons in He as [->|He]; [simpl; tauto|]);
    by apply elem_of_nil in He.
Qed.

Lemma cleanup_no_publish err name (e : Event) : e ∈ cleanup err name → ¬ is_publish e.
Proof.
  unfold cleanup, closing. destruct err; simpl; intros He;
    repeat (apply elem_of_cons in He as [->|He]; [simpl; tauto|]);
    by apply elem_of_nil in He.
Qed.

(** *** Single steps of a worker *)

Lemma workers_goto i p w g :
  workers w !! i = Some g →
  workers (goto i p w) !! i = Some (mkGoroutine p (panicking g)).
Proof. intros Hg. unfold goto. simpl. by rewrite list_lookup_alter_eq, Hg. Qed.

Lemma eventLogs_set i (api api' : S) w :
  eventLogs (eb w) !! i = Some api →
  eventLogs (eb (set_eventLog i api' w)) !! i = Some api'.
Proof.
  intros Hapi. simpl. apply list_lookup_insert_eq. by eapply lookup_lt_Some.
Qed.

(** The step of a worker in the loop, by program point. *)
Lemma tick_read w i g api api' records err :
  crashed w = None → workers w !! i = Some g → pc g = PcRead →
  eventLogs (eb w) !! i = Some api →
  eventlog.Read api = ((records, err), api') →
  tick w (TWorker i) =
    let w1 := emit (TWorker i) (EvRead records err) (set_eventLog i api' w) in
    match err with
    | Some e =>
        goto i PcDeferClose
          (emit (TWorker i) (EvLog Warn (MsgReadError (eventlog.Name api') e)) w1)
    | None =>
        goto i (if decide (length records = 0%nat) then PcSleep else PcPublish records)
          (emit (TWorker i)
             (EvLog Debug (MsgReadReturned (eventlog.Name api') (length records))) w1)
    end.
Proof.
  intros Hc Hg Hpc Hapi Hread. unfold tick, step, processEventLog.
  rewrite Hc, Hg, Hapi. simpl. rewrite Hpc, Hread.
  destruct err; [done|]. by destruct (decide _).
Qed.

Lemma tick_sleep w i g api :
  crashed w = None → workers w !! i = Some g → pc g = PcSleep →
  eventLogs (eb w) !! i = Some api →
  tick w (TWorker i) = goto i PcSelect (emit (TWorker i) (EvSleep time.Second) w).
Proof.
  intros Hc Hg Hpc Hapi. unfold tick, step, processEventLog.
  rewrite Hc, Hg, Hapi. simpl. by rewrite Hpc.
Qed.

Lemma tick_select w i g api :
  crashed w = None → workers w !! i = Some g → pc g = PcSelect →
  eventLogs (eb w) !! i = Some api →
  tick w (TWorker i) =
    if decide (done (eb w) = ChanClosed)
    then goto i PcDeferClose (emit (TWorker i) (EvSelect true) w)
    else goto i PcRead (emit (TWorker i) (EvSelect false) w).
Proof.
  intros Hc Hg Hpc Hapi. unfold tick, step, processEventLog.
  rewrite Hc, Hg, Hapi. simpl. rewrite Hpc.
  by destruct (done (eb w)).
Qed.

Lemma tick_publish w i g api records c ok c' :
  crashed w = None → workers w !! i = Some g → pc g = PcPublish records →
  eventLogs (eb w) !! i = Some api →
  client (eb w) = Some c →
  publisher.PublishEvents (map eventlog.ToMapStr records) opts c = (ok, c') →
  tick w (TWorker i) =
    let n := Z.of_nat (length (map eventlog.ToMapStr records)) in
    let w1 := emit (TWorker i) (EvPublish (map eventlog.ToMapStr records) opts ok)
                (set_client c' w) in
    if ok
    then goto i (PcPersist records)
           (emit (TWorker i) (EvLog Info (MsgPublished (eventlog.Name api) n))
              (emit (TWorker i) (EvAdd publishedEvents (eventlog.Name api) n)
                 (emit (TWorker i) (EvAdd publishedEvents "total" n) w1)))
    else goto i PcDeferClose w1.
Proof.
  intros Hc Hg Hpc Hapi Hcl Hpub. unfold tick, step, processEventLog.
  rewrite Hc, Hg, Hapi. simpl. rewrite Hpc, Hcl, Hpub. by destruct ok.
Qed.

Lemma tick_persist w i g api records r k :
  crashed w = None → workers w !! i = Some g → pc g = PcPersist records →
  eventLogs (eb w) !! i = Some api →
  last records = Some r →
  checkpoint (eb w) = Some k →
  tick w (TWorker i) =
    let name := eventlog.Name api in
    let n := eventlog.RecordID r in
    let ts := time.UTC (eventlog.SystemTime r) in
    goto i PcSelect
      (emit (TWorker i) (EvPersist name n ts)
         (set_checkpoint (checkpoint.Persist name n ts k) w)).
Proof.
  intros Hc Hg Hpc Hapi Hlast Hk. unfold tick, step, processEventLog.
  rewrite Hc, Hg, Hapi. simpl. by rewrite Hpc, Hlast, Hk.
Qed.

Lemma tick_close w i g api err api' :
  crashed w = None → workers w !! i = Some g → pc g = PcDeferClose →
  eventLogs (eb w) !! i = Some api →
  eventlog.Close api = (err, api') →
  tick w (TWorker i) =
    let w1 := emit (TWorker i) (EvClose err)
                (set_eventLog i api'
                   (emit (TWorker i) (EvLog Info MsgStopProcessing) w)) in
    goto i PcDeferDone
      match err with
      | Some e => emit (TWorker i) (EvLog Warn (MsgCloseError (eventlog.Name api') e)) w1
      | None => w1
      end.
Proof.
  intros Hc Hg Hpc Hapi Hclose. unfold tick, step, processEventLog.
  rewrite Hc, Hg, Hapi. simpl. rewrite Hpc, Hclose. by destruct err.
Qed.

(** The calls of a goroutine in a world built by the steps. *)
Lemma calls_goto t i p w : calls t (goto i p w) = calls t w.
Proof. done. Qed.
Lemma calls_throw t i msg w : calls t (throw i msg w) = calls t w.
Proof. done. Qed.
Lemma calls_set_eventLog t i (api : S) w : calls t (set_eventLog i api w) = calls t w.
Proof. done. Qed.
Lemma calls_set_client t (c : C) w : calls t (set_client c w) = calls t w.
Proof. done. Qed.
Lemma calls_set_checkpoint t (k : K) w : calls t (set_checkpoint k w) = calls t w.
Proof. done. Qed.
Lemma calls_set_wg t n w : calls t (set_wg n w) = calls t w.
Proof. done. Qed.
Lemma calls_emit_own t (e : Event) w : calls t (emit t e w) = calls t w ++ [e].
Proof. rewrite calls_emit. by rewrite decide_True. Qed.

Ltac calls_simpl :=
  repeat first
    [ rewrite calls_goto | rewrite calls_throw | rewrite calls_emit_own
    | rewrite calls_set_eventLog | rewrite calls_set_client
    | rewrite calls_set_checkpoint | rewrite calls_set_wg ];
  rewrite <-?(assoc_L (++)); simpl.

(** C8: when Read returns no record and no error, the next two steps
    of the worker make exactly the calls Read, the debug log and
    Sleep(time.Second), one second, and bring it back to the top of its
    loop; nothing is published, and the store, the client and the done
    channel are what they were.  Unless the done channel is closed, the two
    steps after that poll the source again. *)
Theorem C8_empty_read_sleeps_one_second_and_repolls w i g api api' records :
  crashed w = None → workers w !! i = Some g → pc g = PcRead →
  eventLogs (eb w) !! i = Some api →
  eventlog.Read api = ((records, None), api') →
  length records = 0%nat →
  let w' := exec [TWorker i; TWorker i] w in
  calls (TWorker i) w' =
    calls (TWorker i) w ++
      [EvRead records None;
       EvLog Debug (MsgReadReturned (eventlog.Name api') 0);
       EvSleep 1000000000] ∧
  workers w' !! i = Some (mkGoroutine PcSelect (panicking g)) ∧
  checkpoint (eb w') = checkpoint (eb w) ∧
  client (eb w') = client (eb w) ∧
  done (eb w') = done (eb w) ∧
  crashed w' = None ∧
  (done (eb w) ≠ ChanClosed →
   ∃ rest,
     calls (TWorker i) (exec [TWorker i; TWorker i] w') =
       calls (TWorker i) w' ++
         EvSelect false ::
         EvRead (eventlog.Read api').1.1 (eventlog.Read api').1.2 :: rest).
Proof.
  intros Hc Hg Hpc Hapi Hread Hlen. cbv zeta.
  rewrite exec_cons, (tick_read _ _ _ _ _ _ _ Hc Hg Hpc Hapi Hread). simpl.
  rewrite decide_True by done.
  rewrite exec_cons.
  erewrite tick_sleep; [| exact Hc | by apply workers_goto | done
                        | simpl; by eapply eventLogs_set ].
  rewrite exec_nil.
  split_and!; try done.
  - calls_simpl. by rewrite Hlen.
  - unfold goto. simpl. rewrite !list_lookup_alter_eq, Hg. done.
  - intros Hdone. rewrite exec_cons.
    erewrite tick_select;
      [| exact Hc | do 2 apply workers_goto; eassumption | done
       | simpl; by eapply eventLogs_set ].
    simpl. rewrite decide_False by done.
    destruct (eventlog.Read api') as [[records2 err2] api2] eqn:Hread2.
    rewrite exec_cons.
    erewrite tick_read;
      [| exact Hc | do 3 apply workers_goto; eassumption | done
       | simpl; by eapply eventLogs_set | eassumption ].
    rewrite exec_nil.
    simpl. destruct err2; calls_simpl; eexists; by rewrite <-(assoc_L (++)).
Qed.

(** *** A batch that is published *)

(** C3: when Read returns a batch that is not empty and PublishEvents
    returns true for it, the next three steps of the worker end with one
    call of Persist, for the name of the source, the identifier of the last
    record of the batch and its creation time (in UTC, the same instant);
    the store is the result of that call. *)
Theorem C3_persists_the_last_record_of_the_batch
    w i g api api' records r c c' k :
  crashed w = None → workers w !! i = Some g → pc g = PcRead →
  eventLogs (eb w) !! i = Some api →
  client (eb w) = Some c → checkpoint (eb w) = Some k →
  eventlog.Read api = ((records, None), api') →
  last records = Some r →
  publisher.PublishEvents (map eventlog.ToMapStr records) opts c = (true, c') →
  let w' := exec [TWorker i; TWorker i; TWorker i] w in
  let name := eventlog.Name api' in
  let n := Z.of_nat (length records) in
  let ts := time.UTC (eventlog.SystemTime r) in
  calls (TWorker i) w' =
    calls (TWorker i) w ++
      [EvRead records None;
       EvLog Debug (MsgReadReturned name (length records));
       EvPublish (map eventlog.ToMapStr records) opts true;
       EvAdd publishedEvents "total" n;
       EvAdd publishedEvents name n;
       EvLog Info (MsgPublished name n);
       EvPersist name (eventlog.RecordID r) ts] ∧
  checkpoint (eb w') =
    Some (checkpoint.Persist name (eventlog.RecordID r) ts k) ∧
  time.wall ts = time.wall (eventlog.SystemTime r) ∧
  workers w' !! i = Some (mkGoroutine PcSelect (panicking g)) ∧
  crashed w' = None.
Proof.
  intros Hc Hg Hpc Hapi Hcl Hk Hread Hlast Hpub.
  assert (length records ≠ 0%nat) as Hlen by (by destruct records).
  cbv zeta. rewrite exec_cons, (tick_read _ _ _ _ _ _ _ Hc Hg Hpc Hapi Hread). simpl.
  rewrite decide_False by done.
  rewrite exec_cons.
  erewrite tick_publish;
    [| exact Hc | by apply workers_goto | done | simpl; by eapply eventLogs_set
     | simpl; eassumption | eassumption ].
  simpl. rewrite exec_cons.
  erewrite tick_persist;
    [| exact Hc | do 2 apply workers_goto; eassumption | done
     | simpl; by eapply eventLogs_set | eassumption | simpl; exact Hk ].
  rewrite exec_nil.
  split_and!; try done.
  - calls_simpl. by rewrite length_map.
  - unfold goto. simpl. rewrite !list_lookup_alter_eq, Hg. done.
Qed.

(** *** The trace only grows *)

Lemma step_trace t w w' :
  step t w = Some w' → ∃ evs, trace w' = trace w ++ (pair t <$> evs).
Proof.
  unfold step. destruct (crashed w); [done|]. destruct t as [|i|j].
  - by intros ?%Run_step%Run_trace.
  - intros (g & g' & evs & _ & _ & Ht & _)%processEventLog_moves. by exists evs.
  - intros [_ _ _ _ _ (evs & ? & _)]%stopping_step. by exists evs.
Qed.

Lemma exec_calls sched t w : ∃ evs, calls t (exec sched w) = calls t w ++ evs.
Proof.
  induction sched as [|t' sched IH] using rev_ind.
  - exists []. by rewrite app_nil_r.
  - rewrite exec_snoc. unfold tick.
    destruct (step t' (exec sched w)) as [w'|] eqn:Hstep; [|exact IH].
    destruct IH as [evs Hevs]. apply step_trace in Hstep as [evs' Ht].
    eexists. rewrite (calls_app _ _ _ _ Ht), Hevs, <-(assoc_L (++)). done.
Qed.

Lemma tick_step t w w' : step t w = Some w' → tick w t = w'.
Proof. unfold tick. by intros ->. Qed.

(** *** What a step does to the store *)

Lemma processEventLog_checkpoint i w w' :
  processEventLog i w = Some w' →
  checkpoint (eb w') = checkpoint (eb w) ∨
  ∃ name n ts, trace w' = trace w ++ [(TWorker i, EvPersist name n ts)].
Proof.
  unfold processEventLog. intros Hstep.
  destruct (workers w !! i) as [[p pn]|] eqn:Hg; [|done].
  destruct (eventLogs (eb w) !! i) as [api|] eqn:Hapi; [|done].
  simpl in Hstep. destruct p; simpl in Hstep; step_cases; simpl; eauto.
Qed.

(** *** A publish that fails *)

Lemma leaves_publish_tail (events : list MapStr) o (tail : list Event) :
  leaves (EvPublish events o false) tail → tail = [].
Proof. by inversion 1. Qed.

Lemma Forall_prefix {A} (P : A → Prop) (l1 l2 : list A) :
  l1 `prefix_of` l2 → Forall P l2 → Forall P l1.
Proof. intros [k ->]. by intros [? _]%Forall_app. Qed.

Lemma cleanup_Forall_no_persist err name :
  Forall (λ e : Event, ¬ is_persist e) (cleanup err name).
Proof. apply Forall_forall. intros e. apply cleanup_no_persist. Qed.

(** C2: a step of a worker in which PublishEvents returns false
    leaves the store as it is and takes the worker out of its loop, to its
    deferred calls; whatever is scheduled afterwards, the worker only makes
    (a prefix of) its cleanup calls, and so no call of Persist. *)
Theorem C2_failed_publish_exits_without_persist b sched i w' events o :
  let w := exec sched (init b) in
  step (TWorker i) w = Some w' →
  calls (TWorker i) w' = calls (TWorker i) w ++ [EvPublish events o false] →
  checkpoint (eb w') = checkpoint (eb w) ∧
  pc <$> workers w' !! i = Some PcDeferClose ∧
  ∀ sched', ∃ post err name,
    calls (TWorker i) (exec sched' w') = calls (TWorker i) w' ++ post ∧
    post `prefix_of` cleanup err name ∧
    Forall (λ e, ¬ is_persist e) post.
Proof.
  intros w Hstep Hcalls. split_and!.
  - pose proof Hstep as Hstep'. unfold step in Hstep'.
    destruct (crashed w); [done|].
    apply processEventLog_checkpoint in Hstep' as [Hk|(name & n & ts & Ht)]; [done|].
    rewrite (calls_app _ _ _ _ Ht) in Hcalls. simpl in Hcalls.
    rewrite filter_cons_True in Hcalls by done.
    by apply app_inv_head in Hcalls.
  - pose proof Hstep as Hstep'. unfold step in Hstep'.
    destruct (crashed w); [done|].
    apply processEventLog_moves, calls_moves_own in Hstep'
      as (g & g' & evs & Hg & -> & Hmove & Hevs).
    rewrite Hevs in Hcalls. apply app_inv_head in Hcalls as ->.
    by inversion Hmove.
  - intros sched'.
    destruct (exec_calls sched' (TWorker i) w') as [post Hpost].
    assert (exec sched' w' = exec (sched ++ [TWorker i] ++ sched') (init b)) as Hw'.
    { rewrite !exec_app. simpl. rewrite exec_cons, exec_nil. fold w.
      by rewrite (tick_step _ _ _ Hstep). }
    destruct (worker_runs b (sched ++ [TWorker i] ++ sched') i)
      as (st & g & Hrun & _).
    rewrite <-Hw', Hpost, Hcalls, <-(assoc_L (++)) in Hrun. simpl in Hrun.
    destruct (run_leaves _ _ _ Hrun _ _ [] _ eq_refl (leaves_publish _ _))
      as (tail & rest & ->%leaves_publish_tail & -> & Hleave).
    simpl in *. apply leaving_prefix in Hleave as (err & name & Hpre).
    exists rest, err, name. split_and!; try done.
    eapply Forall_prefix; [done|]. apply cleanup_Forall_no_persist.
Qed.

(** *** The first call of a worker *)

Lemma run_nil st g : run st g [] → g = mkGoroutine (PcOpen st) None.
Proof.
  intros Hrun. remember [] as tr eqn:Htr.
  induction Hrun as [|g evs g' tr Hrun IH Hmove]; [done|].
  apply app_eq_nil in Htr as [-> ->]. specialize (IH eq_refl). subst g.
  inversion Hmove.
Qed.

Lemma run_first st g tr :
  run st g tr →
  ∀ (e : Event) post, tr = e :: post →
    ∃ err, e = EvOpen (checkpoint.RecordNumber st) err.
Proof.
  induction 1 as [|g evs g' tr Hrun IH Hmove]; [done|].
  intros e post Htr. destruct tr as [|e' tr'].
  - apply run_nil in Hrun as ->. simpl in Htr. subst evs.
    inversion Hmove; by eauto.
  - simpl in Htr. injection Htr as <- _. by eapply IH.
Qed.

(** *** A source that cannot be opened *)

Lemma run_open_failed st g tr :
  run st g tr →
  ∀ n e post, tr = EvOpen n (Some e) :: post →
    panicking g = None ∧
    ∃ name,
      (pc g = PcDeferDone ∧ post = [EvLog Warn (MsgOpenError name e)]) ∨
      (pc g = PcExit ∧ post = [EvLog Warn (MsgOpenError name e); EvWgDone]).
Proof.
  induction 1 as [|g evs g' tr Hrun IH Hmove]; [done|].
  intros n e post Htr. destruct tr as [|e' tr'].
  - apply run_nil in Hrun as ->. simpl in Htr. subst evs.
    inversion Hmove; subst. split; [done|]. eexists. by left.
  - simpl in Htr. injection Htr as -> <-.
    destruct (IH _ _ _ eq_refl) as (Hpn & name & [[Hpc ->]|[Hpc ->]]).
    + destruct Hmove; simplify_eq/=. split; [done|]. eexists. by right.
    + destruct Hmove; simplify_eq/=.
Qed.

(** *** The source is closed on every way out *)

Lemma run_at_open st g tr :
  run st g tr → ∀ st', pc g = PcOpen st' → tr = [].
Proof. destruct 1 as [|g evs g' tr Hrun Hmove]; [done|]. by destruct Hmove. Qed.

Lemma closed_once_move g evs g' tr :
  (∀ st', pc g = PcOpen st' → tr = []) →
  closed_once g tr → move g evs g' → closed_once g' (tr ++ evs).
Proof.
  unfold closed_once. intros Hopen Hc Hmove.
  destruct Hmove; simpl in *;
    try (apply Forall_app; split; [done|]; by no_such_call).
  - left. rewrite (Hopen _ eq_refl). by eexists _, _, _.
  - right. by exists tr, None, "".
  - right. by eexists tr, (Some _), _.
  - destruct Hc as [(n & e & name & ->)|(body & err & name & -> & Hbody)].
    + left. by eexists _, _, _.
    + right. exists body, err, name. by rewrite <-(assoc_L (++)).
Qed.

Lemma run_closed_once st g tr : run st g tr → closed_once g tr.
Proof.
  induction 1 as [|g evs g' tr Hrun IH Hmove].
  - constructor.
  - eapply closed_once_move; [|done..]. by eapply run_at_open.
Qed.

(** *** The wait group counts the workers that have not returned *)

Lemma pending_app gs (gs' : list goroutine) : pending (gs ++ gs') = (pending gs + pending gs')%nat.
Proof. unfold pending. by rewrite filter_app, length_app. Qed.

Lemma pending_zero gs g :
  pending gs = 0%nat → g ∈ gs → finished g = true.
Proof.
  unfold pending. intros Hz Hg. apply length_zero_iff_nil in Hz.
  destruct (finished g) eqn:Hf; [done|].
  exfalso. by eapply (filter_nil_not_elem_of _ _ g Hz).
Qed.

Lemma pending_cons g gs :
  pending (g :: gs) = if finished g then pending gs else Datatypes.S (pending gs).
Proof.
  unfold pending. destruct (finished g) eqn:Hf.
  - rewrite filter_cons_False; [done|]. by rewrite Hf.
  - by rewrite filter_cons_True.
Qed.

Lemma pending_insert gs i g g' :
  gs !! i = Some g → finished g = false →
  pending (<[i:=g']> gs) =
    if finished g' then (pending gs - 1)%nat else pending gs.
Proof.
  intros Hg Hf. apply list_elem_of_split_length in Hg as (l1 & l2 & -> & ->).
  rewrite insert_app_r_alt by lia.
  replace (length l1 - length l1)%nat with 0%nat by lia.
  simpl. rewrite !pending_app, !pending_cons, Hf.
  destruct (finished g'); lia.
Qed.

Lemma pending_positive gs i g :
  gs !! i = Some g → finished g = false → (0 < pending gs)%nat.
Proof.
  intros Hg Hf. apply list_elem_of_split_length in Hg as (l1 & l2 & -> & ->).
  rewrite pending_app, pending_cons, Hf. lia.
Qed.

Lemma processEventLog_wg i w w' :
  processEventLog i w = Some w' →
  ∃ g g', workers w !! i = Some g ∧ workers w' = <[i:=g']> (workers w) ∧
    finished g = false ∧
    wg w' = if finished g' then wg w - 1 else wg w.
Proof.
  unfold processEventLog. intros Hstep.
  destruct (workers w !! i) as [[p pn]|] eqn:Hg; [|done].
  destruct (eventLogs (eb w) !! i) as [api|] eqn:Hapi; [|done].
  simpl in Hstep. exists (mkGoroutine p pn).
  destruct p; simpl in Hstep; step_cases;
    (eexists; split; [done|]; split;
      [unfold goto, throw; simpl;
       by erewrite alter_insert by eassumption|done]).
Qed.

Lemma move_no_shutdown g evs g' :
  move g evs g' → Forall (λ e, ¬ is_shutdown e) evs.
Proof. destruct 1; by no_such_call. Qed.

Lemma Forall_tagged t evs (P : Event → Prop) :
  Forall P evs → Forall (λ x : tid * Event, P x.2) (pair t <$> evs).
Proof. intros HP. apply Forall_fmap. by eapply Forall_impl. Qed.

Lemma coordinated_init b : coordinated b (init b).
Proof. unfold coordinated. simpl. split_and!; try done; try lia. Qed.

Lemma coordinated_step b w t w' :
  started w → coordinated b w → step t w = Some w' → coordinated b w'.
Proof.
  intros (_ & Hk & _ & _) (Hle & Hlogs & Hwg & Hmain) Hstep.
  unfold step in Hstep. destruct (crashed w); [done|]. destruct t as [|i|j].
  - (* Run *)
    apply Run_step in Hstep as
      [k ps log Hm Hlog Hm' Hw Hwg' Heb Ht|k0 Hm Hk0 Hm' Hw Hwg' Heb Ht
      |k ps Hm Hlog Hm' Hw Hwg' Heb Ht|Hm Hz Hm' Hw Hwg' Heb Ht
      |k0 Hm Hk0 Hm' Hw Hwg' Heb Ht|msg Hm Hk0 ->];
      unfold coordinated; rewrite ?Hm', ?Hw, ?Hwg', ?Heb, ?Ht;
      try rewrite Hm in Hmain.
    + specialize (Hk _ _ Hm). apply lookup_lt_Some in Hlog.
      split_and!; try done.
      * rewrite length_app. simpl. lia.
      * rewrite pending_app, pending_cons. simpl. unfold pending at 2.
        simpl. lia.
      * apply Forall_app. split; [done|]. by no_such_call.
    + split_and!; try done. apply Forall_app. split; [done|]. by no_such_call.
    + specialize (Hk _ _ Hm). apply lookup_ge_None in Hlog.
      split_and!; try done. lia.
    + destruct Hmain as [Hlen Hno]. split_and!; try done.
      apply Forall_app. split; [done|]. by no_such_call.
    + destruct Hmain as (Hlen & Hz & Hno). split_and!; try done.
      exists (trace w), []. split_and!; try done.
    + done.
  - (* processEventLog *)
    pose proof (processEventLog_wg _ _ _ Hstep) as (g & g' & Hg & Hw & Hf & Hwg').
    apply processEventLog_moves in Hstep
      as (g0 & g0' & evs & Hg0 & _ & Ht & Hmove & [Hm _ _ _ Hlen _]).
    pose proof (pending_positive _ _ _ Hg Hf) as Hpos.
    assert (Forall (λ x : tid * Event, ¬ is_shutdown x.2) (pair (TWorker i) <$> evs))
      as Hno by (apply (Forall_tagged _ _ (λ e, ¬ is_shutdown e));
                 by eapply move_no_shutdown).
    unfold coordinated. rewrite Hm, Hw, Hlen, Ht, Hwg', length_insert.
    rewrite (pending_insert _ _ _ _ Hg Hf).
    assert ((if finished g' then wg w - 1 else wg w) =
            Z.of_nat (if finished g' then (pending (workers w) - 1)%nat
                      else pending (workers w))) as Hcount
      by (destruct (finished g'); lia).
    split_and!; try done.
    destruct (main w); try (by apply Forall_app).
    + destruct Hmain. split; [done|]. by apply Forall_app.
    + destruct Hmain as (_ & Hz & _). lia.
    + destruct Hmain as (_ & Hz & _). lia.
  - (* Stop *)
    apply stopping_step in Hstep as [Hm Hw Hwg' Hl _ (evs & Ht & Hevs)].
    unfold coordinated. rewrite Hm, Hw, Hwg', Hl, Ht.
    assert (Forall (λ x : tid * Event, ¬ is_shutdown x.2) (pair (TStop j) <$> evs))
      as Hno by (by apply (Forall_tagged _ _ (λ e, ¬ is_shutdown e))).
    split_and!; try done.
    destruct (main w); try (by apply Forall_app).
    + destruct Hmain. split; [done|]. by apply Forall_app.
    + destruct Hmain as (? & ? & ?). split_and!; try done. by apply Forall_app.
    + destruct Hmain as (? & ? & pre & post & -> & Hpre & Hpost).
      split_and!; try done. exists pre, (post ++ (pair (TStop j) <$> evs)).
      split_and!; try done.
      * by rewrite <-(assoc_L (++)).
      * apply Forall_app. split; [done|]. apply Forall_fmap.
        eapply Forall_impl; [exact Hevs|]. simpl. by eauto.
Qed.

Lemma coordinated_exec b sched :
  started (exec sched (init b)) ∧ coordinated b (exec sched (init b)).
Proof.
  apply (exec_invariant (λ w, started w ∧ coordinated b w)).
  - split; [apply started_init|apply coordinated_init].
  - intros w t w' [Hs Hc] _ Hstep. split.
    + by eapply started_step.
    + by eapply coordinated_step.
Qed.

(** *** [Shutdown] comes once, after every worker *)

Lemma calls_elem_of t (e : Event) w : e ∈ calls t w ↔ (t, e) ∈ trace w.
Proof.
  unfold calls. rewrite list_elem_of_fmap. split.
  - intros ([t' e'] & -> & [Ht Hin]%list_elem_of_filter). simpl in *. by subst.
  - intros Hin. exists (t, e). split; [done|]. by apply list_elem_of_filter.
Qed.

Lemma split_unique {A} (P : A → Prop) (l1 l2 k1 k2 : list A) x y :
  l1 ++ x :: l2 = k1 ++ y :: k2 →
  Forall (λ z, ¬ P z) l1 → Forall (λ z, ¬ P z) l2 → P y →
  l1 = k1 ∧ x = y ∧ l2 = k2.
Proof.
  intros [(post' & -> & ->)|(k & -> & Hk)]%split_snoc Hl1 Hl2 Hy.
  - apply Forall_app in Hl1 as [_ [Hny _]%Forall_cons]. done.
  - destruct k as [|z k]; simplify_eq/=.
    + by rewrite app_nil_r.
    + apply Forall_app in Hl2 as [_ [Hny _]%Forall_cons]. done.
Qed.

Lemma run_exit_done st g tr : run st g tr → pc g = PcExit → EvWgDone ∈ tr.
Proof.
  intros Hc%run_closed_once Hpc. unfold closed_once in Hc. rewrite Hpc in Hc.
  destruct Hc as [(n & e & name & ->)|(body & err & name & -> & _)].
  - set_solver.
  - unfold cleanup. set_solver.
Qed.

(** C6: in every execution, a call of Shutdown in the trace is the
    only one, it is made by Run, which has returned; one worker per event
    log was started and each has returned, its deferred wg.Done() standing
    before the call of Shutdown; after that call no worker calls anything
    (only calls of Stop may follow).  And once Run has returned, the call
    is in the trace. *)
Theorem C6_shutdown_once_after_every_worker b sched :
  let w := exec sched (init b) in
  (main w = MainReturned →
   ∃ pre post, trace w = pre ++ (TMain, EvShutdown) :: post) ∧
  (∀ pre x post,
     trace w = pre ++ x :: post → is_shutdown x.2 →
     x = (TMain, EvShutdown) ∧ main w = MainReturned ∧
     Forall (λ y, ¬ is_shutdown y.2) pre ∧
     Forall (λ y, ¬ is_shutdown y.2) post ∧
     length (workers w) = length (eventLogs b) ∧
     (∀ i g, workers w !! i = Some g →
        pc g = PcExit ∧ (TWorker i, EvWgDone) ∈ pre) ∧
     Forall (λ y, ∃ j, y.1 = TStop j) post).
Proof.
  intros w. destruct (coordinated_exec b sched) as [Hs Hc]. fold w in Hs, Hc.
  destruct Hc as (Hle & Hlogs & Hwg & Hmain). split.
  - intros Hm. rewrite Hm in Hmain.
    destruct Hmain as (_ & _ & pre & post & ? & _). by exists pre, post.
  - intros pre x post Ht Hx.
    assert (¬ Forall (λ y : tid * Event, ¬ is_shutdown y.2) (trace w)) as Hsome.
    { rewrite Ht. intros [_ [Hnx _]%Forall_cons]%Forall_app. done. }
    destruct (main w) eqn:Hm; try done; try (by destruct Hmain as (? & ?));
      try (by destruct Hmain as (? & ? & ?)).
    destruct Hmain as (Hlen & Hz & pre0 & post0 & Ht0 & Hpre0 & Hpost0).
    assert (Forall (λ y : tid * Event, ¬ is_shutdown y.2) post0) as Hpost0'.
    { eapply Forall_impl; [exact Hpost0|]. by intros ? (? & ? & ?). }
    rewrite Ht0 in Ht.
    destruct (split_unique (λ y : tid * Event, is_shutdown y.2)
                _ _ _ _ _ _ Ht Hpre0 Hpost0' Hx) as (<- & <- & <-).
    split_and!; try done.
    + congruence.
    + intros i g Hg.
      assert (finished g = true) as Hf.
      { eapply (pending_zero (workers w)); [lia|].
        by eapply list_elem_of_lookup_2. }
      assert (pc g = PcExit) as Hpc.
      { unfold finished in Hf. by destruct (pc g). }
      split; [done|].
      destruct Hs as (_ & _ & _ & Hr).
      destruct (Hr _ _ Hg) as (st & _ & Hrun).
      pose proof (run_exit_done _ _ _ Hrun Hpc) as Hin.
      apply calls_elem_of in Hin. rewrite Ht0 in Hin.
      apply elem_of_app in Hin as [Hin|Hin]; [done|].
      apply elem_of_cons in Hin as [Hin|Hin]; [done|].
      apply (proj1 (Forall_forall _ _) Hpost0) in Hin as (j & Hj & _).
      done.
    + eapply Forall_impl; [exact Hpost0|]. intros ? (j & ? & ?). by exists j.
Qed.

(** *** Workers do not wait for one another *)

Lemma processEventLog_enabled i w g api :
  workers w !! i = Some g → eventLogs (eb w) !! i = Some api →
  pc g ≠ PcExit → is_Some (processEventLog i w).
Proof.
  intros Hg Hapi Hpc. unfold processEventLog. rewrite Hg, Hapi. simpl.
  destruct (pc g); try done; simpl;
    repeat match goal with
      | |- is_Some (Some _) => by eexists
      | |- context [match ?x with _ => _ end] => destruct x
      | |- context [decide ?P] => destruct (decide P)
      end.
Qed.

Lemma worker_has_source b sched i g :
  workers (exec sched (init b)) !! i = Some g →
  is_Some (eventLogs (eb (exec sched (init b))) !! i).
Proof.
  intros Hg%lookup_lt_Some.
  destruct (coordinated_exec b sched) as [_ (Hle & _)].
  apply lookup_lt_is_Some. lia.
Qed.

Lemma crashed_moves i w w' g :
  processEventLog i w = Some w' → workers w !! i = Some g →
  crashed w = None → panicking g = None → 0 < wg w → crashed w' = None.
Proof.
  unfold processEventLog. intros Hstep Hg Hc Hpn Hwg. rewrite Hg in Hstep.
  destruct (eventLogs (eb w) !! i) as [api|] eqn:Hapi; [|done].
  destruct g as [p pn]. simpl in *. subst pn.
  destruct p; simpl in Hstep; step_cases; simpl in *; try done; lia.
Qed.

(** C7: once Open has failed for a source, its worker only logs the
    error and runs its deferred wg.Done(): it opens nothing again, reads,
    publishes, persists and closes nothing.  Its steps leave the client,
    the store, the done channel and every other worker and source as they
    are, and do not end the process; and whatever the state of that worker,
    every other worker that has not returned can take its next step. *)
Theorem C7_open_failure_ends_only_that_worker b sched i n e post :
  let w := exec sched (init b) in
  calls (TWorker i) w = EvOpen n (Some e) :: post →
  (∃ name, post `prefix_of` [EvLog Warn (MsgOpenError name e); EvWgDone]) ∧
  (∀ w', step (TWorker i) w = Some w' →
     calls (TWorker i) w' = calls (TWorker i) w ++ [EvWgDone] ∧
     crashed w' = None ∧
     client (eb w') = client (eb w) ∧
     checkpoint (eb w') = checkpoint (eb w) ∧
     done (eb w') = done (eb w) ∧
     ∀ j, j ≠ i →
       workers w' !! j = workers w !! j ∧
       eventLogs (eb w') !! j = eventLogs (eb w) !! j) ∧
  (∀ j g, j ≠ i → crashed w = None →
     workers w !! j = Some g → pc g ≠ PcExit →
     is_Some (step (TWorker j) w)).
Proof.
  intros w Hcalls.
  destruct (coordinated_exec b sched) as [Hs (Hle & Hlogs & Hwg & Hmain)].
  fold w in Hs, Hle, Hlogs, Hwg, Hmain.
  destruct Hs as (_ & _ & Hn & Hr).
  destruct (workers w !! i) as [g|] eqn:Hg;
    [|by rewrite (Hn _ Hg) in Hcalls].
  destruct (Hr _ _ Hg) as (st & _ & Hrun).
  destruct (run_open_failed _ _ _ Hrun _ _ _ Hcalls)
    as (Hpn & name & [[Hpc ->]|[Hpc ->]]).
  - split_and!.
    + exists name. by exists [EvWgDone].
    + intros w' Hstep.
      assert (finished g = false) as Hf by (unfold finished; by rewrite Hpc).
      pose proof (pending_positive _ _ _ Hg Hf) as Hpos.
      unfold step in Hstep. destruct (crashed w) eqn:Hc; [done|].
      pose proof (crashed_moves _ _ _ _ Hstep Hg Hc Hpn ltac:(lia)) as Hc'.
      pose proof (processEventLog_checkpoint _ _ _ Hstep) as Hk.
      pose proof (processEventLog_moves _ _ _ Hstep) as Hmv.
      destruct (calls_moves_own _ _ _ Hmv)
        as (g1 & g1' & evs & Hg1 & Hg1' & Hmove & Hevs).
      rewrite Hg in Hg1. injection Hg1 as <-.
      destruct g as [p pn]. simpl in Hpc. subst p. inversion Hmove; subst.
      split_and!; try done.
      * destruct Hk as [Hk|(? & ? & ? & Ht)]; [|]. 
        -- unfold processEventLog in Hstep. rewrite Hg in Hstep.
           destruct (eventLogs (eb w) !! i); [|done]. simpl in Hstep.
           simpl in Hpn. subst pn.
           destruct (decide _); simplify_eq/=; done.
        -- rewrite (calls_app _ _ _ _ Ht) in Hevs. simpl in Hevs.
           rewrite filter_cons_True in Hevs by done.
           by apply app_inv_head in Hevs.
      * destruct Hk as [Hk|(? & ? & ? & Ht)]; [done|].
        rewrite (calls_app _ _ _ _ Ht) in Hevs. simpl in Hevs.
        rewrite filter_cons_True in Hevs by done.
        by apply app_inv_head in Hevs.
      * by destruct Hmv as (? & ? & ? & _ & _ & _ & _ & [_ _ ? _ _ _]).
      * intros j Hne. split.
        -- by eapply workers_moves_other.
        -- destruct Hmv as (? & ? & ? & _ & _ & _ & _ & [_ _ _ _ _ Hl]).
           by apply Hl.
    + intros j gj Hne Hc Hgj Hpcj.
      destruct (worker_has_source b sched j gj Hgj) as [api Hapi].
      unfold step. fold w in Hapi. rewrite Hc.
      by eapply processEventLog_enabled.
  - split_and!.
    + by exists name.
    + intros w' Hstep. unfold step in Hstep. destruct (crashed w); [done|].
      unfold processEventLog in Hstep. rewrite Hg in Hstep.
      destruct (eventLogs (eb w) !! i); [|done]. simpl in Hstep.
      by rewrite Hpc in Hstep.
    + intros j gj Hne Hc Hgj Hpcj.
      destruct (worker_has_source b sched j gj Hgj) as [api Hapi].
      unfold step. fold w in Hapi. rewrite Hc.
      by eapply processEventLog_enabled.
Qed.

(** *** A read that fails, and the way out of the loop *)

Lemma leaves_read_tail (records : list Rec) e (tail : list Event) :
  leaves (EvRead records (Some e)) tail →
  ∃ name, tail = [EvLog Warn (MsgReadError name e)].
Proof. inversion 1. by eexists. Qed.

(** C9: after a call of Read that returns an error the worker logs
    the error and then only makes its cleanup calls: no PublishEvents and
    no Persist.  The same holds on the two other ways out of the loop (the
    done channel is closed, PublishEvents returns false).  A worker that has
    returned after Open succeeded has called Close exactly once, last but
    for wg.Done().  And the deferred closure always can run: it calls
    Close, logs its error if there is one, and goes on to wg.Done() without
    ending the process. *)
Theorem C9_read_error_breaks_the_loop_and_the_source_is_closed b sched i :
  let w := exec sched (init b) in
  (∀ pre records e post,
     calls (TWorker i) w = pre ++ EvRead records (Some e) :: post →
     ∃ name rest err cname,
       post = EvLog Warn (MsgReadError name e) :: rest ∧
       rest `prefix_of` cleanup err cname ∧
       Forall (λ e, ¬ is_publish e ∧ ¬ is_persist e) post) ∧
  (∀ pre e tail0 post,
     calls (TWorker i) w = pre ++ e :: post → leaves e tail0 →
     ∃ tail rest err cname,
       leaves e tail ∧ post = tail ++ rest ∧
       rest `prefix_of` cleanup err cname) ∧
  (∀ g, workers w !! i = Some g → pc g = PcExit →
     (∃ n e name, calls (TWorker i) w = open_failed n e name ++ [EvWgDone]) ∨
     (∃ body err name,
        calls (TWorker i) w = body ++ cleanup err name ∧
        Forall (λ e, ¬ is_close e) body)) ∧
  (∀ g api,
     crashed w = None → workers w !! i = Some g → pc g = PcDeferClose →
     eventLogs (eb w) !! i = Some api →
     ∃ w', step (TWorker i) w = Some w' ∧
       calls (TWorker i) w' =
         calls (TWorker i) w ++
           closing (eventlog.Close api).1 (eventlog.Name (eventlog.Close api).2) ∧
       pc <$> workers w' !! i = Some PcDeferDone ∧
       eventLogs (eb w') !! i = Some (eventlog.Close api).2 ∧
       crashed w' = None).
Proof.
  intros w. destruct (worker_runs b sched i) as (st & g & Hrun & Hg).
  fold w in Hrun, Hg. split_and!.
  - intros pre records e post Hcalls. rewrite Hcalls in Hrun.
    destruct (run_leaves _ _ _ Hrun _ _ _ _ eq_refl (leaves_read records e ""))
      as (tail & rest & [name ->]%leaves_read_tail & -> & Hleave).
    apply leaving_prefix in Hleave as (err & cname & Hpre).
    exists name, rest, err, cname. split_and!; try done.
    apply Forall_cons. split; [simpl; tauto|].
    eapply Forall_prefix; [exact Hpre|]. apply Forall_forall. intros x Hx.
    split; [by eapply cleanup_no_publish|by eapply cleanup_no_persist].
  - intros pre e tail0 post Hcalls Hl. rewrite Hcalls in Hrun.
    destruct (run_leaves _ _ _ Hrun _ _ _ _ eq_refl Hl)
      as (tail & rest & Hl' & -> & Hleave).
    apply leaving_prefix in Hleave as (err & cname & Hpre).
    by exists tail, rest, err, cname.
  - intros g' Hg' Hpc. destruct Hg as [Hg|[Hg _]]; [|congruence].
    rewrite Hg in Hg'. injection Hg' as <-.
    apply run_closed_once in Hrun. unfold closed_once in Hrun.
    by rewrite Hpc in Hrun.
  - intros g' api Hc Hg' Hpc Hapi.
    destruct (eventlog.Close api) as [err api'] eqn:Hclose.
    exists (tick w (TWorker i)). split.
    { unfold tick. unfold step at 2. rewrite Hc.
      destruct (processEventLog_enabled i w g' api Hg' Hapi) as [w' Hw'];
        [by rewrite Hpc|].
      unfold step. by rewrite Hc, Hw'. }
    rewrite (tick_close _ _ _ _ _ _ Hc Hg' Hpc Hapi Hclose). simpl.
    split_and!.
    + unfold closing. destruct err; by calls_simpl.
    + destruct err; simpl; by rewrite list_lookup_alter_eq, Hg'.
    + destruct err; simpl; apply list_lookup_insert_eq; by eapply lookup_lt_Some.
    + by destruct err.
Qed.

(** *** The state a worker is started with *)

Lemma loaded_init b k0 : checkpoint b = Some k0 → loaded b k0 (init b).
Proof.
  intros Hk. unfold loaded. simpl. split_and!; try done.
  intros i st Hin. by apply elem_of_nil in Hin.
Qed.

Lemma elem_of_tagged t t' (e : Event) evs :
  (t, e) ∈ pair t' <$> evs → t = t' ∧ e ∈ evs.
Proof.
  intros (e' & [= -> ->] & Hin)%list_elem_of_fmap. done.
Qed.

Lemma loaded_step b k0 w t w' :
  started w → loaded b k0 w → step t w = Some w' → loaded b k0 w'.
Proof.
  intros (Hnil & Hlen & _ & _) (Hk & Hps & Hlogs & Hgo) Hstep.
  unfold step in Hstep. destruct (crashed w); [done|]. destruct t as [|i|j].
  - (* Run *)
    apply Run_step in Hstep as
      [k ps log Hm Hlog Hm' Hw Hwg' Heb Ht|k1 Hm Hk1 Hm' Hw Hwg' Heb Ht
      |k ps Hm Hlog Hm' Hw Hwg' Heb Ht|Hm Hz Hm' Hw Hwg' Heb Ht
      |k1 Hm Hk1 Hm' Hw Hwg' Heb Ht|msg Hm Hk1 ->];
      unfold loaded; rewrite ?Hm', ?Hw, ?Hwg', ?Heb, ?Ht; try done.
    + specialize (Hlen _ _ Hm). specialize (Hps _ _ Hm). subst k ps.
      split_and!; try done.
      * by intros k' ps' [= <- <-].
      * intros i. rewrite length_app. simpl. intros Hi. apply Hlogs. lia.
      * intros i st [Hin|Hin]%elem_of_app; [by apply Hgo|].
        repeat (apply elem_of_cons in Hin as [Hin|Hin]; [by simplify_eq|]).
        apply elem_of_cons in Hin as [[= -> ->]|Hin]; [|by apply elem_of_nil in Hin].
        exists log. split; [|done]. by rewrite <-Hlogs.
    + specialize (Hk Hm). rewrite Hk in Hk1. injection Hk1 as <-.
      split_and!; try done.
      * by intros k' ps' [= <- <-].
      * intros i st [Hin|Hin]%elem_of_app; [by apply Hgo|].
        repeat (apply elem_of_cons in Hin as [Hin|Hin]; [by simplify_eq|]).
        by apply elem_of_nil in Hin.
    + split_and!; try done.
      intros i st [Hin|Hin]%elem_of_app; [by apply Hgo|].
      repeat (apply elem_of_cons in Hin as [Hin|Hin]; [by simplify_eq|]).
      by apply elem_of_nil in Hin.
    + split_and!; try done.
      intros i st [Hin|Hin]%elem_of_app; [by apply Hgo|].
      repeat (apply elem_of_cons in Hin as [Hin|Hin]; [by simplify_eq|]).
      by apply elem_of_nil in Hin.
  - (* processEventLog *)
    apply processEventLog_moves in Hstep as Hmv.
    destruct Hmv as (g & g' & evs & Hg & Hw & Ht & _ & [Hm _ _ _ _ Hl]).
    unfold loaded. rewrite Hm, Hw, Ht, length_insert. split_and!; try done.
    + intros Hm'. by rewrite (Hnil Hm') in Hg.
    + intros j Hj. apply lookup_lt_Some in Hg.
      rewrite Hl by lia. by apply Hlogs.
    + intros j st [Hin|Hin]%elem_of_app; [by apply Hgo|].
      by apply elem_of_tagged in Hin as [? _].
  - (* Stop *)
    apply stopping_step in Hstep as [Hm Hw _ Hl Hk' (evs & Ht & _)].
    unfold loaded. rewrite Hm, Hw, Hl, Hk', Ht. split_and!; try done.
    intros i st [Hin|Hin]%elem_of_app; [by apply Hgo|].
    by apply elem_of_tagged in Hin as [? _].
Qed.

Lemma loaded_exec b k0 sched :
  checkpoint b = Some k0 →
  started (exec sched (init b)) ∧ loaded b k0 (exec sched (init b)).
Proof.
  intros Hk. apply (exec_invariant (λ w, started w ∧ loaded b k0 w)).
  - split; [apply started_init|by apply loaded_init].
  - intros w t w' [Hs Hl] _ Hstep. split.
    + by eapply started_step.
    + by eapply loaded_step.
Qed.

(** [Run] alone: after [n] + 1 turns it has read the map of the store and
    started the workers of the first [n] event logs, each with the entry of
    the map for the name of its source, or the zero value. *)
Lemma Run_turns b k0 n :
  checkpoint b = Some k0 → (n ≤ length (eventLogs b))%nat →
  main (exec (replicate (Datatypes.S n) TMain) (init b)) =
    MainLoop n (checkpoint.States k0) ∧
  eb (exec (replicate (Datatypes.S n) TMain) (init b)) = b ∧
  crashed (exec (replicate (Datatypes.S n) TMain) (init b)) = None ∧
  workers (exec (replicate (Datatypes.S n) TMain) (init b)) =
    (λ log, mkGoroutine
              (PcOpen (default checkpoint.zero
                         (checkpoint.States k0 !! eventlog.Name log))) None)
      <$> take n (eventLogs b) ∧
  (∀ j log, (j < n)%nat → eventLogs b !! j = Some log →
     (TMain, EvGo j (default checkpoint.zero
                       (checkpoint.States k0 !! eventlog.Name log)))
       ∈ trace (exec (replicate (Datatypes.S n) TMain) (init b))).
Proof.
  intros Hk. induction n as [|n IH]; intros Hn.
  - simpl replicate. rewrite exec_cons, exec_nil.
    unfold tick, step, Run. simpl. rewrite Hk. simpl.
    split_and!; try done. intros j log Hj. lia.
  - destruct IH as (Hmain & Heb & Hcr & Hws & Hgo); [lia|].
    replace (replicate (Datatypes.S (Datatypes.S n)) TMain)
      with (replicate (Datatypes.S n) TMain ++ [TMain])
      by (symmetry; apply (replicate_cons_app (Datatypes.S n))).
    rewrite exec_snoc.
    set (w := exec (replicate (Datatypes.S n) TMain) (init b)) in *.
    destruct (lookup_lt_is_Some_2 (eventLogs b) n) as [log Hlog]; [lia|].
    unfold tick, step, Run. rewrite Hcr, Hmain, Heb, Hlog. simpl.
    rewrite Heb, Hcr, Hws, (take_S_r _ _ _ Hlog), fmap_app.
    split_and!; try done.
    intros j log' Hj Hlog'. rewrite !elem_of_app.
    destruct (decide (j = n)) as [->|Hne].
    + rewrite Hlog in Hlog'. injection Hlog' as <-.
      right. apply list_elem_of_singleton. done.
    + do 4 left. apply Hgo; [lia|done].
Qed.

(** C10: when the map of the store has no entry for the name of a
    source, Run starts the worker of that source with the zero value of the
    checkpoint state (the lookup yields it; nothing is reported and the
    process goes on), and the first call of that worker is Open with record
    number 0.  This is what happens: when Run is given its turns, it has
    started that worker with the zero value, without a panic, and the first
    step of the worker is the call of Open with 0 on its source; and under
    no schedule is the worker started with another state or does it begin
    with another call. *)
Theorem C10_absent_entry_starts_at_record_zero b sched k0 i log :
  let w := exec sched (init b) in
  checkpoint b = Some k0 →
  eventLogs b !! i = Some log →
  checkpoint.States k0 !! eventlog.Name log = None →
  (∀ st, (TMain, EvGo i st) ∈ trace w → st = checkpoint.zero) ∧
  (∀ e post, calls (TWorker i) w = e :: post → ∃ err, e = EvOpen 0 err) ∧
  (∀ ps, crashed w = None → main w = MainLoop i ps →
     ∃ w', step TMain w = Some w' ∧
       workers w' = workers w ++ [mkGoroutine (PcOpen checkpoint.zero) None] ∧
       main w' = MainLoop (Datatypes.S i) ps ∧
       crashed w' = None) ∧
  (let w1 := exec (replicate (Datatypes.S (Datatypes.S i)) TMain) (init b) in
   (TMain, EvGo i checkpoint.zero) ∈ trace w1 ∧
   workers w1 !! i = Some (mkGoroutine (PcOpen checkpoint.zero) None) ∧
   crashed w1 = None ∧
   calls (TWorker i) (tick w1 (TWorker i)) =
     [EvOpen 0 (eventlog.Open 0 log).1;
      match (eventlog.Open 0 log).1 with
      | Some e =>
          EvLog Warn (MsgOpenError (eventlog.Name (eventlog.Open 0 log).2) e)
      | None => EvLog Debug (MsgOpened (eventlog.Name (eventlog.Open 0 log).2))
      end] ∧
   eventLogs (eb (tick w1 (TWorker i))) !! i = Some (eventlog.Open 0 log).2 ∧
   crashed (tick w1 (TWorker i)) = None).
Proof.
  intros w Hk Hlog Hnone.
  destruct (loaded_exec b k0 sched Hk) as [Hs (_ & Hps & Hlogs & Hgo)].
  fold w in Hs, Hps, Hlogs, Hgo.
  assert (∀ st, (TMain, EvGo i st) ∈ trace w → st = checkpoint.zero) as Hzero.
  { intros st (log' & Hlog' & ->)%Hgo. rewrite Hlog in Hlog'.
    injection Hlog' as <-. by rewrite Hnone. }
  split_and!; [done| | |].
  - intros e post Hcalls. destruct Hs as (_ & _ & Hn & Hr).
    destruct (workers w !! i) as [g|] eqn:Hg;
      [|by rewrite (Hn _ Hg) in Hcalls].
    destruct (Hr _ _ Hg) as (st & Hin & Hrun).
    rewrite (Hzero _ Hin) in Hrun.
    by eapply (run_first _ _ _ Hrun).
  - intros ps Hc Hm. destruct Hs as (_ & Hlen & _ & _).
    specialize (Hlen _ _ Hm). specialize (Hps _ _ Hm). subst ps.
    assert (eventLogs (eb w) !! i = Some log) as Hlog'.
    { rewrite Hlogs; [done|lia]. }
    eexists. unfold step, Run. rewrite Hc, Hm, Hlog', Hnone. simpl.
    by split_and!.
  - pose proof (lookup_lt_Some _ _ _ Hlog) as Hlt.
    destruct (Run_turns b k0 (Datatypes.S i) Hk)
      as (Hmain & Heb & Hcr & Hws & Hgo1); [lia|].
    pose proof (started_exec b (replicate (Datatypes.S (Datatypes.S i)) TMain))
      as (_ & _ & _ & Hruns).
    set (w1 := exec (replicate (Datatypes.S (Datatypes.S i)) TMain) (init b))
      in *.
    assert (workers w1 !! i = Some (mkGoroutine (PcOpen checkpoint.zero) None))
      as Hg.
    { rewrite Hws, list_lookup_fmap, lookup_take_lt, Hlog by lia.
      simpl. by rewrite Hnone. }
    assert (calls (TWorker i) w1 = []) as Hcalls.
    { destruct (Hruns _ _ Hg) as (st & _ & Hrun).
      by eapply (run_at_open _ _ _ Hrun). }
    assert (eventLogs (eb w1) !! i = Some log) as Hlog1 by by rewrite Heb.
    cbv zeta. split_and!; try done.
    + specialize (Hgo1 i log). rewrite Hnone in Hgo1. apply Hgo1; [lia|done].
    + unfold tick, step, processEventLog. rewrite Hcr, Hg, Hlog1. simpl.
      destruct (eventlog.Open 0 log) as [[e|] api']; simpl;
        calls_simpl; by rewrite Hcalls.
    + unfold tick, step, processEventLog. rewrite Hcr, Hg, Hlog1. simpl.
      destruct (eventlog.Open 0 log) as [[e|] api']; simpl;
        by rewrite list_lookup_insert_eq by by eapply lookup_lt_Some.
    + unfold tick, step, processEventLog. rewrite Hcr, Hg, Hlog1. simpl.
      by destruct (eventlog.Open 0 log) as [[e|] api'].
Qed.

(** *** Order of the records *)

Lemma batches_app tr (tr' : list Event) :
  batches (tr ++ tr') = batches tr ++ batches tr'.
Proof. apply omap_app. Qed.

Lemma published_app tr (tr' : list Event) :
  published (tr ++ tr') = published tr ++ published tr'.
Proof. apply omap_app. Qed.

Lemma persisted_app tr (tr' : list Event) :
  persisted (tr ++ tr') = persisted tr ++ persisted tr'.
Proof. apply omap_app. Qed.

Lemma in_order_move g evs g' tr :
  in_order g tr → move g evs g' → in_order g' (tr ++ evs).
Proof.
  unfold in_order. intros Ho Hmove.
  destruct Hmove; simpl in *;
    rewrite batches_app, published_app, persisted_app; simpl;
    rewrite ?decide_True, ?decide_False by done; simpl;
    rewrite ?app_nil_r.
  - (* Open fails *)
    destruct Ho as [Hp Hk]. exists (length (batches tr)), (length (batches tr)).
    by rewrite take_ge by lia.
  - done.
  - (* the done channel is closed *)
    destruct Ho as [Hp Hk]. exists (length (batches tr)), (length (batches tr)).
    by rewrite take_ge by lia.
  - done.
  - (* Read fails *)
    destruct Ho as [Hp Hk]. exists (length (batches tr)), (length (batches tr)).
    by rewrite take_ge by lia.
  - done.
  - (* Read yields a batch *)
    destruct Ho as [Hp Hk]. by exists (batches tr).
  - done.
  - (* PublishEvents returns true *)
    destruct Ho as (bs & Hb & Hp & Hk). exists bs. rewrite Hp, fmap_app. done.
  - (* PublishEvents returns false *)
    destruct Ho as (bs & Hb & Hp & Hk).
    exists (Datatypes.S (length bs)), (length bs). rewrite Hb.
    rewrite take_app_length, take_ge by (rewrite length_app; simpl; lia).
    rewrite Hp, fmap_app. split_and!; [lia|done|done].
  - (* Persist *)
    destruct Ho as (bs & Hb & Hp & Hk). rewrite Hb, Hp.
    split; [done|]. rewrite !fmap_app, Hk. simpl. unfold watermark at 3.
    by match goal with Hlast : last _ = Some _ |- _ => rewrite Hlast end.
  - (* a panic before PublishEvents *)
    destruct Ho as (bs & Hb & Hp & Hk). exists (length bs), (length bs).
    rewrite Hb, take_app_length. done.
  - (* a panic before Persist *)
    destruct Ho as (bs & Hb & Hp & Hk).
    exists (Datatypes.S (length bs)), (length bs). rewrite Hb.
    rewrite take_app_length, take_ge by (rewrite length_app; simpl; lia).
    split_and!; [lia|done|done].
  - done.
  - done.
  - done.
Qed.

Lemma run_in_order st g tr : run st g tr → in_order g tr.
Proof.
  induction 1 as [|g evs g' tr Hrun IH Hmove].
  - by split.
  - by eapply in_order_move.
Qed.

Lemma in_order_prefixes g tr :
  in_order g tr →
  ∃ m1 m2, (m2 ≤ m1)%nat ∧
    published tr = map eventlog.ToMapStr <$> take m1 (batches tr) ∧
    Some <$> persisted tr = watermark <$> take m2 (batches tr).
Proof.
  unfold in_order. destruct (pc g); try done.
  1-4: intros [Hp Hk]; exists (length (batches tr)), (length (batches tr));
       by rewrite take_ge by lia.
  - intros (bs & Hb & Hp & Hk). exists (length bs), (length bs).
    by rewrite Hb, take_app_length.
  - intros (bs & Hb & Hp & Hk).
    exists (Datatypes.S (length bs)), (length bs). rewrite Hb.
    rewrite take_app_length, take_ge by (rewrite length_app; simpl; lia).
    split_and!; [lia|done|done].
Qed.

Lemma watermarks_in (bs : list (list Rec)) ps p :
  Some <$> ps = watermark <$> bs → p ∈ ps →
  ∃ r, r ∈ concat bs ∧ p.1 = eventlog.RecordID r.
Proof.
  revert ps. induction bs as [|b bs IH]; intros ps Heq Hin.
  { destruct ps; [by apply elem_of_nil in Hin|done]. }
  destruct ps as [|p' ps]; [done|].
  simpl in Heq. injection Heq as Hp' Hps. unfold watermark in Hp'.
  destruct (last b) as [r|] eqn:Hlast; simplify_eq/=.
  apply elem_of_cons in Hin as [->|Hin].
  - exists r. split; [|done]. apply elem_of_app. left.
    by apply last_Some_elem_of.
  - destruct (IH _ Hps Hin) as (r' & Hr' & ->). exists r'. split; [|done].
    apply elem_of_app. by right.
Qed.

Lemma watermarks_sorted (R : relation Z) (bs : list (list Rec)) ps :
  Some <$> ps = watermark <$> bs →
  StronglySorted R (eventlog.RecordID <$> concat bs) →
  StronglySorted R ps.*1.
Proof.
  revert ps. induction bs as [|b bs IH]; intros ps Heq Hs.
  { destruct ps; [constructor|done]. }
  destruct ps as [|p ps]; [done|].
  simpl in Heq, Hs. injection Heq as Hp Hps.
  rewrite fmap_app in Hs. constructor.
  - eapply IH; [done|]. by eapply StronglySorted_app_1_r.
  - apply Forall_forall. intros x (p' & -> & Hp')%list_elem_of_fmap.
    destruct (watermarks_in _ _ _ Hps Hp') as (r' & Hr' & ->).
    unfold watermark in Hp. destruct (last b) as [r|] eqn:Hlast; simplify_eq/=.
    eapply StronglySorted_app_1_elem_of; [exact Hs| |].
    + apply list_elem_of_fmap. exists r. split; [done|].
      by apply last_Some_elem_of.
    + apply list_elem_of_fmap. by exists r'.
Qed.

Lemma concat_take_sorted (R : relation Z) (bs : list (list Rec)) m :
  StronglySorted R (eventlog.RecordID <$> concat bs) →
  StronglySorted R (eventlog.RecordID <$> concat (take m bs)).
Proof.
  rewrite <-(take_drop m bs) at 1. rewrite concat_app, fmap_app.
  apply StronglySorted_app_1_l.
Qed.

(** C4: the batches passed to PublishEvents are, in order, the first
    batches read from the source, and the positions passed to Persist are,
    in order, those of the last records of the first of these batches: no
    batch is skipped or taken out of turn.  So when the identifiers of the
    records read never decrease, the persisted positions never decrease
    (the checkpoint never regresses); and when they increase strictly, so
    do the persisted positions. *)
Theorem C4_checkpoints_follow_the_order_of_the_source b sched i :
  let tr := calls (TWorker i) (exec sched (init b)) in
  (∃ m1 m2, (m2 ≤ m1)%nat ∧
     published tr = map eventlog.ToMapStr <$> take m1 (batches tr) ∧
     Some <$> persisted tr = watermark <$> take m2 (batches tr)) ∧
  (Sorted Z.le (eventlog.RecordID <$> concat (batches tr)) →
   Sorted Z.le (persisted tr).*1) ∧
  (Sorted Z.lt (eventlog.RecordID <$> concat (batches tr)) →
   Sorted Z.lt (persisted tr).*1).
Proof.
  intros tr. destruct (worker_runs b sched i) as (st & g & Hrun & _).
  fold tr in Hrun. apply run_in_order, in_order_prefixes in Hrun.
  split; [done|]. destruct Hrun as (m1 & m2 & _ & _ & Hk).
  split; intros Hs%Sorted_StronglySorted; try apply _;
    apply StronglySorted_Sorted;
    (eapply watermarks_sorted; [exact Hk|]); by apply concat_take_sorted.
Qed.

(** *** The stop signal *)

Lemma Setup_running (bt : Beat (S:=S) (C:=C) (K:=K) (Cfg:=Cfg)) b b' :
  Setup bt b = Ok (b', None) →
  done b' = ChanOpen ∧ client b' = Some (Publisher_Connect bt) ∧
  is_Some (checkpoint b').
Proof.
  unfold Setup. intros Hsetup.
  destruct (config b) as [cfg|]; [|done].
  destruct (NewCheckpoint bt _ _ _) as [k|]; [|by simplify_eq/=].
  simpl in Hsetup.
  destruct (if decide (Metrics_BindAddress cfg = "") then None else _);
    [by simplify_eq/=|].
  destruct (newEventLogs bt (EventLogs cfg) []) as [logs err].
  simplify_eq/=. by eauto.
Qed.

Lemma signals_app (tr tr' : list (tid * Event)) :
  signals (tr ++ tr') = (signals tr + signals tr')%nat.
Proof. unfold signals. by rewrite filter_app, length_app. Qed.

Lemma signals_none (tr : list (tid * Event)) :
  Forall (λ x, ¬ is_close_done x.2) tr → signals tr = 0%nat.
Proof.
  unfold signals. induction 1 as [|x tr Hx _ IH]; [done|].
  by rewrite filter_cons_False.
Qed.

Lemma move_no_close_done g evs g' :
  move g evs g' → Forall (λ e, ¬ is_close_done e) evs.
Proof. destruct 1; by no_such_call. Qed.

Lemma one_shot_step w t w' : one_shot w → step t w = Some w' → one_shot w'.
Proof.
  unfold one_shot, step. intros Hone Hstep.
  destruct (crashed w); [done|]. destruct t as [|i|j].
  - assert (done (eb w') = done (eb w) ∧
            ∃ l : list (tid * Event), trace w' = trace w ++ l ∧
                   Forall (λ x, ¬ is_close_done x.2) l) as (-> & l & -> & Hl).
    { apply Run_step in Hstep as [| | | | |msg _ _ ->].
      all: try (split; [congruence|]; eexists; split; [eassumption|];
                by no_such_call).
      - split; [congruence|]. exists []. by rewrite app_nil_r.
      - split; [by match goal with Heb : eb _ = _ |- _ => rewrite Heb end|].
        eexists. split; [eassumption|]. by no_such_call.
      - split; [done|]. exists []. by rewrite app_nil_r. }
    by rewrite signals_app, (signals_none l), Nat.add_0_r.
  - apply processEventLog_moves in Hstep
      as (g & g' & evs & _ & _ & -> & Hmove & [_ _ -> _ _ _]).
    rewrite signals_app, (signals_none (_ <$> evs)), Nat.add_0_r; [done|].
    apply (Forall_tagged _ _ (λ e, ¬ is_close_done e)).
    by eapply move_no_close_done.
  - unfold stopping in Hstep. step_cases; simpl in *;
      rewrite ?signals_app; try done.
    all: match goal with
         | Hd : done (eb _) = _ |- _ => rewrite Hd in *
         | _ => idtac
         end; simpl in *; simplify_eq/=.
    all: try (by rewrite Hone).
    all: match goal with
         | |- context [done (eb ?w0)] => destruct (done (eb w0)); by rewrite Hone
         end.
Qed.

Lemma closed_for_good sched w :
  done (eb w) = ChanClosed → done (eb (exec sched w)) = ChanClosed.
Proof.
  intros Hd. induction sched as [|t sched IH] using rev_ind; [done|].
  rewrite exec_snoc. unfold tick.
  destruct (step t (exec sched w)) as [w'|] eqn:Hstep; [|done].
  simpl. unfold step in Hstep. destruct (crashed _); [done|].
  destruct t as [|i|j].
  - apply Run_step in Hstep as [| | | | |msg _ _ ->]; try done.
    all: match goal with Heb : eb _ = _ |- _ => rewrite Heb end; exact IH.
  - apply processEventLog_moves in Hstep
      as (g & g' & evs & _ & _ & _ & _ & [_ _ Hdone _ _ _]). congruence.
  - unfold stopping in Hstep. step_cases; simpl in *; congruence.
Qed.

(** The call of [Stop] as a whole is what its three steps do when nothing
    comes in between. *)
Lemma stopping_Stop w b' :
  crashed w = None → done (eb w) = ChanOpen → Stop (eb w) = Ok b' →
  eb (exec (replicate 3 (TStop (length (stops w)))) w) = b' ∧
  crashed (exec (replicate 3 (TStop (length (stops w)))) w) = None.
Proof.
  intros Hc Hd. unfold Stop. rewrite Hd. simpl.
  destruct (client (eb w)) as [c|] eqn:Hcl; [|done]. intros [= <-].
  simpl. rewrite !exec_cons, exec_nil.
  set (j := length (stops w)).
  set (w1 := set_stops (stops w ++ [StopCheck])
               (emit (TStop j) (EvLog Info MsgStopping) w)).
  set (w2 := set_stops (<[j:=StopClientClose]> (stops w1))
               (emit (TStop j) EvCloseDone (set_done ChanClosed w1))).
  assert (tick w (TStop j) = w1) as ->.
  { unfold tick, step, stopping. rewrite Hc.
    rewrite lookup_ge_None_2 by (unfold j; lia). by rewrite decide_True. }
  assert (tick w1 (TStop j) = w2) as ->.
  { unfold tick, step, stopping. simpl. rewrite Hc.
    rewrite lookup_app_r by (unfold j; lia). unfold j. rewrite Nat.sub_diag.
    simpl. by rewrite Hd. }
  unfold tick, step, stopping. simpl. rewrite Hc.
  rewrite list_lookup_insert_eq by (rewrite length_app; unfold j; simpl; lia).
  by rewrite Hcl.
Qed.

(** C5, as the code has it: after Setup the done channel is open and
    the client is connected; in such a state a call of Stop closes the
    channel and then the client, and returns.  The channel is closed for
    good, and in every execution it is closed at most once.  Stop is not
    idempotent: a call of Stop that follows one that returned does not
    return, it panics on the closed channel. *)
Theorem C5_stop_closes_the_done_channel_once b c :
  done b = ChanOpen → client b = Some c →
  Stop b =
    Ok {| config := config b; eventLogs := eventLogs b; done := ChanClosed;
          client := Some (publisher.Close c); checkpoint := checkpoint b |} ∧
  (∀ sched w, done (eb w) = ChanClosed →
     done (eb (exec sched w)) = ChanClosed) ∧
  (∀ sched, (signals (trace (exec sched (init b))) ≤ 1)%nat) ∧
  (∀ b', Stop b = Ok b' → Stop b' = Panic "close of closed channel").
Proof.
  intros Hd Hc. split_and!.
  - unfold Stop. by rewrite Hd, Hc.
  - intros sched w. apply closed_for_good.
  - intros sched.
    assert (one_shot (exec sched (init b))) as Hone.
    { apply exec_invariant.
      - unfold one_shot. simpl. by rewrite Hd.
      - intros w t w' Hw _ Hstep. by eapply one_shot_step. }
    unfold one_shot in Hone.
    destruct (done (eb (exec sched (init b)))); lia.
  - intros b'. unfold Stop at 1. rewrite Hd, Hc. simpl. by intros [= <-].
Qed.

(** *** [Setup] *)

Lemma newEventLogs_ok (bt : Beat (S:=S) (C:=C) (K:=K) (Cfg:=Cfg)) cfgs acc logs :
  newEventLogs bt cfgs acc = (logs, None) →
  ∃ new, logs = acc ++ new ∧
    Forall2 (λ cfg log, eventlog_New bt cfg = inl log) cfgs new.
Proof.
  revert acc. induction cfgs as [|cfg cfgs IH]; intros acc Hnew; simpl in Hnew.
  - injection Hnew as <-. exists []. by rewrite app_nil_r.
  - destruct (eventlog_New bt cfg) as [log|err] eqn:Hlog; [|done].
    destruct (IH _ Hnew) as (new & -> & Hall).
    exists (log :: new). rewrite <-(assoc_L (++)). split; [done|].
    by constructor.
Qed.

Lemma newEventLogs_failure (bt : Beat (S:=S) (C:=C) (K:=K) (Cfg:=Cfg))
    pre cfg post acc logs err :
  Forall2 (λ cfg log, eventlog_New bt cfg = inl log) pre logs →
  eventlog_New bt cfg = inr err →
  newEventLogs bt (pre ++ cfg :: post) acc =
    (acc ++ logs, Some ("Failed to create new event log. " +:+ err)).
Proof.
  intros Hall Herr. revert acc.
  induction Hall as [|c log pre logs Hc _ IH]; intros acc; simpl.
  - by rewrite Herr, app_nil_r.
  - rewrite Hc, IH, <-(assoc_L (++)). done.
Qed.

(** X1: when Setup returns without error, the done channel is open, the
    client is the one the publisher connected, the store is the one that
    NewCheckpoint made for the registry file with the thresholds 10 and
    five seconds, and the event logs are those that eventlog.New made of
    the configured ones, one for each, in the order of the configuration
    (event logs the beater had before are gone). *)
Theorem X1_Setup_makes_one_event_log_per_configured
    (bt : Beat (S:=S) (C:=C) (K:=K) (Cfg:=Cfg)) b b' :
  Setup bt b = Ok (b', None) →
  ∃ cfg k,
    config b = Some cfg ∧ config b' = Some cfg ∧
    done b' = ChanOpen ∧
    client b' = Some (Publisher_Connect bt) ∧
    NewCheckpoint bt (RegistryFile cfg) 10 5000000000 = inl k ∧
    checkpoint b' = Some k ∧
    Forall2 (λ c log, eventlog_New bt c = inl log) (EventLogs cfg) (eventLogs b').
Proof.
  unfold Setup. intros Hsetup.
  destruct (config b) as [cfg|] eqn:Hcfg; [|done].
  change (5 * time.Second) with 5000000000 in Hsetup.
  destruct (NewCheckpoint bt _ _ _) as [k|] eqn:Hk; [|by simplify_eq/=].
  simpl in Hsetup.
  destruct (if decide (Metrics_BindAddress cfg = "") then None else _);
    [by simplify_eq/=|].
  destruct (newEventLogs bt (EventLogs cfg) []) as [logs err] eqn:Hlogs.
  simplify_eq/=. apply newEventLogs_ok in Hlogs as (new & -> & Hall).
  exists cfg, k. by split_and!.
Qed.

(** X2: when the store and the metrics endpoint are fine and
    eventlog.New fails for a configured event log after it succeeded for
    those before it, Setup returns that error behind "Failed to create new
    event log. ", makes no event log for the configurations that follow,
    and undoes nothing: the beater keeps the event logs made so far, the
    store, the client and the open done channel. *)
Theorem X2_Setup_stops_at_the_first_event_log_that_fails
    (bt : Beat (S:=S) (C:=C) (K:=K) (Cfg:=Cfg)) b cfg k pre c post logs err :
  config b = Some cfg →
  NewCheckpoint bt (RegistryFile cfg) 10 5000000000 = inl k →
  (Metrics_BindAddress cfg ≠ "" →
   net_Listen bt "tcp" (Metrics_BindAddress cfg) = None) →
  EventLogs cfg = pre ++ c :: post →
  Forall2 (λ c log, eventlog_New bt c = inl log) pre logs →
  eventlog_New bt c = inr err →
  Setup bt b =
    Ok ({| config := Some cfg; eventLogs := logs; done := ChanOpen;
           client := Some (Publisher_Connect bt); checkpoint := Some k |},
        Some ("Failed to create new event log. " +:+ err)).
Proof.
  intros Hcfg Hk Hlisten Hlogs Hpre Herr. unfold Setup. rewrite Hcfg.
  change (5 * time.Second) with 5000000000. rewrite Hk. simpl.
  destruct (decide (Metrics_BindAddress cfg = "")) as [|Hne];
    [|rewrite (Hlisten Hne)];
    by rewrite Hlogs, (newEventLogs_failure _ _ _ _ _ _ _ Hpre Herr).
Qed.

(** X3: whenever Setup returns, with an error or without, a call of
    Stop after it returns too, with the done channel closed and the client
    closed; the store and the event logs are as Setup left them. *)
Theorem X3_Stop_after_Setup_returns
    (bt : Beat (S:=S) (C:=C) (K:=K) (Cfg:=Cfg)) b b' err :
  Setup bt b = Ok (b', err) →
  Stop b' =
    Ok {| config := config b'; eventLogs := eventLogs b'; done := ChanClosed;
          client := Some (publisher.Close (Publisher_Connect bt));
          checkpoint := checkpoint b' |}.
Proof.
  unfold Setup. intros Hsetup.
  destruct (config b) as [cfg|] eqn:Hcfg; [|done].
  destruct (NewCheckpoint bt _ _ _) as [k|] eqn:Hk; [|by simplify_eq/=].
  simpl in Hsetup.
  destruct (if decide (Metrics_BindAddress cfg = "") then None else _);
    [by simplify_eq/=|].
  destruct (newEventLogs bt (EventLogs cfg) []) as [logs err'] eqn:Hlogs.
  by simplify_eq/=.
Qed.

(** *** Panics *)

Lemma run_batch st g tr :
  run st g tr →
  ∀ records, pc g = PcPublish records ∨ pc g = PcPersist records →
    is_Some (last records).
Proof.
  induction 1 as [|g evs g' tr Hrun IH Hmove]; intros records Hpc.
  - by destruct Hpc.
  - destruct Hpc as [Hpc|Hpc]; inversion Hmove; subst; simpl in *;
      try discriminate Hpc; injection Hpc as <-.
    + apply last_is_Some. by intros ->.
    + apply IH. by left.
Qed.

Lemma processEventLog_sound i w w' g :
  processEventLog i w = Some w' → workers w !! i = Some g →
  panicking g = None →
  is_Some (client (eb w)) → is_Some (checkpoint (eb w)) →
  (∀ records, pc g = PcPersist records → is_Some (last records)) →
  is_Some (client (eb w')) ∧ is_Some (checkpoint (eb w')) ∧
  ∃ g', workers w' = <[i:=g']> (workers w) ∧ panicking g' = None.
Proof.
  unfold processEventLog. intros Hstep Hg Hpn [c Hc] [k Hk] Hlast.
  rewrite Hg in Hstep.
  destruct (eventLogs (eb w) !! i) as [api|] eqn:Hapi; [|done].
  destruct g as [p pn]. simpl in *. subst pn.
  destruct p; simpl in Hstep;
    try (destruct (Hlast _ eq_refl) as [r Hr]; rewrite Hr in Hstep);
    rewrite ?Hc, ?Hk in Hstep; step_cases; simpl; rewrite ?Hc, ?Hk.
  all: split; [by eauto|]; split; [by eauto|].
  all: eexists; split; [by apply alter_insert|done].
Qed.

Lemma sound_step b w t w' :
  started w → coordinated b w → sound w → crashed w = None →
  step t w = Some w' → sound w'.
Proof.
  intros Hstarted Hco (Hc & Hk & Hpn & Hnil & Hclosed & _) Hcr Hstep.
  unfold step in Hstep. rewrite Hcr in Hstep. destruct t as [|i|j].
  - destruct Hk as [k Hk]. unfold Run in Hstep. rewrite Hk in Hstep.
    step_cases; unfold sound; simpl; rewrite ?Hk, ?Hcr; split_and!; eauto;
      try done.
    apply Forall_app. split; [done|]. by repeat constructor.
  - destruct (processEventLog_wg _ _ _ Hstep) as (g & g0 & Hg & _ & Hfin & _).
    destruct Hstarted as (_ & _ & _ & Hruns).
    destruct (Hruns _ _ Hg) as (st & _ & Hrun).
    assert (panicking g = None) as Hg_pn
      by (eapply (Forall_lookup_1 _ _ _ _ Hpn); eassumption).
    destruct (processEventLog_sound _ _ _ _ Hstep Hg Hg_pn Hc Hk)
      as (Hc' & Hk' & g' & Hws & Hpn').
    { intros records Hpc. eapply run_batch; [exact Hrun|by right]. }
    assert (crashed w' = None) as Hcr'.
    { eapply crashed_moves; try eassumption.
      destruct Hco as (_ & _ & -> & _).
      apply (pending_positive _ _ _ Hg) in Hfin. lia. }
    apply processEventLog_moves in Hstep
      as (_ & _ & _ & _ & _ & _ & _ & [_ Hstops Hdone _ _ _]).
    unfold sound. rewrite Hstops, Hdone, Hcr', Hws. split_and!; try done.
    apply Forall_insert; done.
  - destruct Hc as [c Hc]. unfold stopping in Hstep. rewrite ?Hc in Hstep.
    step_cases; unfold sound; simpl in *; rewrite ?Hc, ?Hcr; try done.
    all: split_and!; eauto; try done.
    all: try match goal with
           | Hj : stops _ !! _ = Some _ |- _ =>
               pose proof (lookup_lt_Some _ _ _ Hj)
           end.
    + intros _. exists j, StopClientClose.
      by rewrite list_lookup_insert_eq.
    + congruence.
    + intros msg [= <-]. split; [done|].
      destruct Hclosed as (j0 & s & Hj0 & Hs); [congruence|].
      assert (j ≠ j0) by (intros ->; congruence).
      apply lookup_lt_Some in Hj0. lia.
    + intros Hd. destruct (Hclosed Hd) as (j0 & s & Hj0 & Hs).
      destruct (decide (j0 = j)) as [->|Hne].
      * exists j, StopReturned. by rewrite list_lookup_insert_eq.
      * exists j0, s. by rewrite list_lookup_insert_ne.
    + intros Hd. destruct (Hclosed Hd) as (j0 & s & Hj0 & Hs).
      exists j0, s. split; [|done]. by apply lookup_app_l_Some.
Qed.

Lemma sound_exec b sched :
  is_Some (client b) → is_Some (checkpoint b) → done b = ChanOpen →
  sound (exec sched (init b)).
Proof.
  intros Hc Hk Hd.
  apply (exec_invariant (λ w, started w ∧ coordinated b w ∧ sound w)).
  - split; [apply started_init|]. split; [apply coordinated_init|].
    unfold sound. simpl. rewrite Hd. by split_and!.
  - intros w t w' (Hstarted & Hco & Hsound) Hcr Hstep. split_and!.
    + by eapply started_step.
    + by eapply coordinated_step.
    + by eapply sound_step.
Qed.

(** X4: in a beater with its client, its store and its open done
    channel, as Setup leaves it, neither Run nor a worker ever panics: no
    nil pointer is dereferenced, the last record of a batch is there when
    Persist is called, and the counter of the wait group never becomes
    negative.  The process ends in a panic only when a call of Stop finds
    the done channel closed, and then a second call of Stop has begun. *)
Theorem X4_only_a_second_Stop_panics b sched msg :
  is_Some (client b) → is_Some (checkpoint b) → done b = ChanOpen →
  crashed (exec sched (init b)) = Some msg →
  msg = "close of closed channel" ∧
  (2 ≤ length (stops (exec sched (init b))))%nat.
Proof.
  intros Hc Hk Hd Hcr.
  destruct (sound_exec b sched Hc Hk Hd) as (_ & _ & _ & _ & _ & Hcrashed).
  by apply Hcrashed.
Qed.

(** *** The end of a worker after the stop signal *)

Lemma processEventLog_rank i w w' g :
  done (eb w) = ChanClosed →
  processEventLog i w = Some w' → workers w !! i = Some g →
  ∃ g', workers w' !! i = Some g' ∧ (rank (pc g') < rank (pc g))%nat.
Proof.
  unfold processEventLog. intros Hd Hstep Hg. rewrite Hg in Hstep.
  pose proof (lookup_lt_Some _ _ _ Hg) as Hlt.
  destruct (eventLogs (eb w) !! i) as [api|] eqn:Hapi; [|done].
  destruct g as [p pn]. simpl in *.
  destruct p; simpl in Hstep; rewrite ?Hd in Hstep; step_cases; simpl.
  all: eexists; split;
    [unfold goto, throw; simpl; rewrite list_lookup_alter_eq, Hg; reflexivity
    |simpl; lia].
Qed.

Lemma step_other_worker t i w w' g :
  step t w = Some w' → t ≠ TWorker i →
  workers w !! i = Some g → workers w' !! i = Some g.
Proof.
  unfold step. intros Hstep Ht Hg. destruct (crashed w); [done|].
  destruct t as [|j|j].
  - apply Run_step in Hstep as [| | | | |msg _ _ ->]; try done;
      try congruence.
    match goal with Hws : workers _ = _ ++ _ |- _ => rewrite Hws end.
    by apply lookup_app_l_Some.
  - apply processEventLog_moves in Hstep.
    rewrite (workers_moves_other _ _ _ _ Hstep); [done|congruence].
  - apply stopping_step in Hstep as [_ Hws _ _ _ _]. congruence.
Qed.

Lemma tick_crashed w t : crashed (tick w t) = None → crashed w = None.
Proof.
  unfold tick, step. destruct (crashed w) eqn:Hcr; [|done].
  simpl. by rewrite Hcr.
Qed.

Lemma turns_of_snoc i sched t :
  turns_of i (sched ++ [t]) =
    if decide (t = TWorker i) then Datatypes.S (turns_of i sched)
    else turns_of i sched.
Proof.
  unfold turns_of. rewrite filter_app, length_app.
  rewrite filter_cons, filter_nil. destruct (decide (t = TWorker i)); simpl; lia.
Qed.

Lemma rank_decreases b sched sched' i g :
  done (eb (exec sched (init b))) = ChanClosed →
  workers (exec sched (init b)) !! i = Some g →
  crashed (exec sched' (exec sched (init b))) = None →
  ∃ g', workers (exec sched' (exec sched (init b))) !! i = Some g' ∧
    (rank (pc g') ≤ rank (pc g) - turns_of i sched')%nat.
Proof.
  intros Hd Hg. induction sched' as [|t sched' IH] using rev_ind; intros Hcr.
  - exists g. split; [done|]. unfold turns_of. simpl. lia.
  - rewrite exec_snoc in Hcr |- *. pose proof (tick_crashed _ _ Hcr) as Hcr0.
    destruct (IH Hcr0) as (g1 & Hg1 & Hrank).
    pose proof (closed_for_good sched' _ Hd) as Hd1.
    rewrite turns_of_snoc. unfold tick.
    destruct (step t (exec sched' (exec sched (init b)))) as [w2|] eqn:Hstep;
      simpl.
    + destruct (decide (t = TWorker i)) as [->|Hne].
      * unfold step in Hstep. rewrite Hcr0 in Hstep.
        destruct (processEventLog_rank _ _ _ _ Hd1 Hstep Hg1) as (g2 & Hg2 & Hlt).
        exists g2. split; [done|lia].
      * exists g1. split; [|done]. by eapply step_other_worker.
    + exists g1. split; [done|].
      destruct (decide (t = TWorker i)) as [->|Hne]; [|done].
      unfold step in Hstep. rewrite Hcr0 in Hstep. rewrite <-exec_app in Hg1, Hstep.
      destruct (worker_has_source _ _ _ _ Hg1) as [api Hapi].
      assert (pc g1 = PcExit) as Hpc; [|rewrite Hpc; simpl; lia].
      destruct (pc g1) eqn:Hpc; try done.
      all: destruct (processEventLog_enabled _ _ _ _ Hg1 Hapi) as [w2 Hw2];
        [by rewrite Hpc|congruence].
Qed.

(** X5: once the done channel is closed, a worker returns within six of
    its own steps, whatever the other goroutines do in between and whatever
    the source, the client and the store answer, unless the process ends
    before: it finishes at most the batch it is reading (one Read, one
    PublishEvents, one Persist), sees the closed channel at the next
    select, and runs its two deferred calls.  From the other program
    points fewer steps are enough, as [rank] counts them. *)
Theorem X5_worker_returns_within_six_steps_of_the_signal b sched sched' i g :
  done (eb (exec sched (init b))) = ChanClosed →
  workers (exec sched (init b)) !! i = Some g →
  crashed (exec sched' (exec sched (init b))) = None →
  (rank (pc g) ≤ turns_of i sched')%nat →
  (rank (pc g) ≤ 6)%nat ∧
  ∃ g', workers (exec sched' (exec sched (init b))) !! i = Some g' ∧
    pc g' = PcExit.
Proof.
  intros Hd Hg Hcr Hturns. split; [destruct (pc g); simpl; lia|].
  destruct (rank_decreases b sched sched' i g Hd Hg Hcr) as (g' & Hg' & Hrank).
  exists g'. split; [done|]. destruct (pc g'); simpl in Hrank; by try lia.
Qed.

(** *** Where a worker resumes *)

Lemma run_open_once st g tr :
  run st g tr →
  ∀ (e : Event) post, tr = e :: post → Forall (λ e, ¬ is_open e) post.
Proof.
  induction 1 as [|g evs g' tr Hrun IH Hmove]; [done|].
  intros e post Htr. destruct tr as [|e' tr'].
  - apply run_nil in Hrun as ->. simpl in Htr. subst evs.
    inversion Hmove; subst; by no_such_call.
  - simpl in Htr. injection Htr as <- <-.
    apply Forall_app. split; [by eapply IH|].
    pose proof (run_at_open _ _ _ Hrun) as Hopen.
    destruct Hmove; try by no_such_call.
    all: by specialize (Hopen _ eq_refl).
Qed.

(** X6: the first call of a worker is Open, with the record number that
    the store held for the name of its source when Run was entered, or with
    0 when the store held none; and the worker calls Open only that once,
    whether the call fails or not. *)
Theorem X6_a_worker_opens_its_source_once_at_the_stored_record
    b sched k0 i log e post :
  checkpoint b = Some k0 →
  eventLogs b !! i = Some log →
  calls (TWorker i) (exec sched (init b)) = e :: post →
  (∃ err,
     e = EvOpen
           (checkpoint.RecordNumber
              (default checkpoint.zero
                 (checkpoint.States k0 !! eventlog.Name log))) err) ∧
  Forall (λ e, ¬ is_open e) post.
Proof.
  intros Hk Hlog Hcalls.
  destruct (loaded_exec b k0 sched Hk) as [Hs (_ & _ & _ & Hgo)].
  destruct Hs as (_ & _ & Hn & Hr).
  destruct (workers (exec sched (init b)) !! i) as [g|] eqn:Hg;
    [|by rewrite (Hn _ Hg) in Hcalls].
  destruct (Hr _ _ Hg) as (st & Hin & Hrun).
  destruct (Hgo _ _ Hin) as (log' & Hlog' & ->).
  rewrite Hlog in Hlog'. injection Hlog' as <-. split.
  - by eapply (run_first _ _ _ Hrun).
  - by eapply (run_open_once _ _ _ Hrun).
Qed.

(** *** The store *)

Lemma replay_snoc (k0 : K) (tr : list (tid * Event)) x :
  replay k0 (tr ++ [x]) = store_call (replay k0 tr) x.
Proof. unfold replay. by rewrite foldl_app. Qed.

Lemma replay_step k0 w t w' :
  checkpoint (eb w) = Some (replay k0 (trace w)) →
  step t w = Some w' →
  checkpoint (eb w') = Some (replay k0 (trace w')).
Proof.
  unfold step. intros Hk Hstep. destruct (crashed w); [done|].
  destruct t as [|i|j].
  - unfold Run in Hstep. step_cases; simpl; rewrite ?replay_snoc;
      unfold store_call; simpl; congruence.
  - unfold processEventLog in Hstep.
    destruct (workers w !! i) as [[p pn]|] eqn:Hg; [|done].
    destruct (eventLogs (eb w) !! i) as [api|] eqn:Hapi; [|done].
    simpl in Hstep.
    destruct p; simpl in Hstep; step_cases; simpl; rewrite ?replay_snoc;
      unfold store_call; simpl; congruence.
  - unfold stopping in Hstep. step_cases; simpl; rewrite ?replay_snoc;
      unfold store_call; simpl; congruence.
Qed.

(** X7: at every moment the store of the beater is the store that Run
    was entered with, after the calls of Persist and Shutdown made so far,
    in the order in which they were made: nothing else writes to it and
    no call is lost. *)
Theorem X7_the_store_is_the_calls_of_Persist_and_Shutdown_replayed
    b sched k0 :
  checkpoint b = Some k0 →
  checkpoint (eb (exec sched (init b))) =
    Some (replay k0 (trace (exec sched (init b)))).
Proof.
  intros Hk.
  apply (exec_invariant
           (λ w, checkpoint (eb w) = Some (replay k0 (trace w)))); [done|].
  intros w t w' Hw _ Hstep. by eapply replay_step.
Qed.

(** *** What is left unpublished when a worker leaves *)

Lemma run_before st g tr :
  run st g tr →
  ∀ pre e tail0 post,
    tr = pre ++ e :: post → leaves e tail0 →
    ∃ g0 evs g1, run st g0 pre ∧ move g0 (e :: evs) g1.
Proof.
  induction 1 as [|g evs g' tr Hrun IH Hmove].
  - intros pre ??? Hnil. by destruct pre.
  - intros pre e tail0 post [(post' & -> & ->)|(k & -> & Hk)]%split_snoc Hl.
    + by eapply IH.
    + pose proof Hmove as Hmove0.
      destruct Hl; destruct Hmove; try absurd_call.
      all: destruct k as [|? [|? [|? [|? ?]]]]; simplify_eq/=.
      all: rewrite app_nil_r; eexists _, _, _; split; eassumption.
Qed.

Lemma leaving_silent g tr :
  leaving g tr → batches tr = [] ∧ published tr = [] ∧ persisted tr = [].
Proof.
  unfold leaving. destruct (pc g); try done.
  - by intros ->.
  - by intros ([e|] & name & ->).
  - by intros ([e|] & name & ->).
Qed.

(** X9: a worker that leaves its loop on the stop signal or on an error
    of Read has passed every batch it read to PublishEvents and has given
    the store the last record of each, in the order read; one that leaves
    on a refused publish has done so for every batch but the refused one,
    which is the last one read. *)
Theorem X9_a_worker_leaves_at_most_the_refused_batch_unpersisted
    b sched i pre e tail0 post :
  calls (TWorker i) (exec sched (init b)) = pre ++ e :: post →
  leaves e tail0 →
  let tr := calls (TWorker i) (exec sched (init b)) in
  match e with
  | EvPublish events _ _ =>
      ∃ bs records,
        batches tr = bs ++ [records] ∧
        events = map eventlog.ToMapStr records ∧
        published tr = map eventlog.ToMapStr <$> (bs ++ [records]) ∧
        Some <$> persisted tr = watermark <$> bs
  | _ =>
      published tr = map eventlog.ToMapStr <$> batches tr ∧
      Some <$> persisted tr = watermark <$> batches tr
  end.
Proof.
  intros Hcalls Hl tr.
  destruct (worker_runs b sched i) as (st & g & Hrun & _). fold tr in Hrun.
  subst tr. rewrite Hcalls in *.
  destruct (run_before _ _ _ Hrun _ _ _ _ eq_refl Hl)
    as (g0 & evs & g1 & Hrun0 & Hmove).
  destruct (run_leaves _ _ _ Hrun _ _ _ _ eq_refl Hl)
    as (tail & rest & Hl' & -> & (Hb & Hp & Hs)%leaving_silent).
  apply run_in_order in Hrun0. unfold in_order in Hrun0.
  rewrite (cons_middle e), !batches_app, !published_app, !persisted_app.
  rewrite Hb, Hp, Hs, !app_nil_r.
  destruct Hl'; inversion Hmove; subst; simpl in *.
  - rewrite !app_nil_r. done.
  - rewrite !app_nil_r. done.
  - destruct Hrun0 as (bs & Hbs & Hpub & Hper).
    exists bs, records. rewrite !app_nil_r, Hbs, Hpub, fmap_app. done.
Qed.

(** *** The metrics *)

Lemma adds_app tr (tr' : list Event) : adds (tr ++ tr') = adds tr ++ adds tr'.
Proof. apply omap_app. Qed.

Lemma accepted_sizes_app tr (tr' : list Event) :
  accepted_sizes (tr ++ tr') = accepted_sizes tr ++ accepted_sizes tr'.
Proof. apply omap_app. Qed.

Lemma counted_app (api : S) tr (tr' : list Event) :
  counted api (tr ++ tr') = counted api tr ++ counted (source_after api tr) tr'.
Proof.
  revert api. induction tr as [|e tr IH]; intros api; [done|].
  simpl. by rewrite IH, (assoc_L (++)).
Qed.

Lemma source_after_app (api : S) tr (tr' : list Event) :
  source_after api (tr ++ tr') = source_after (source_after api tr) tr'.
Proof. unfold source_after. by rewrite foldl_app. Qed.

Lemma counted_stable (api : S) tr :
  (∀ n s, eventlog.Name (eventlog.Open n s).2 = eventlog.Name s) →
  (∀ s, eventlog.Name (eventlog.Read s).2 = eventlog.Name s) →
  (∀ s, eventlog.Name (eventlog.Close s).2 = eventlog.Name s) →
  counted api tr = concat (counts (eventlog.Name api) <$> accepted_sizes tr).
Proof.
  intros Hopen Hread Hclose. revert api.
  induction tr as [|e tr IH]; intros api; [done|].
  assert (eventlog.Name (source_call api e) = eventlog.Name api) as Hname
    by (destruct e; simpl; auto).
  simpl. rewrite IH, Hname. unfold accepted_sizes. simpl.
  destruct e; try done. by destruct ok.
Qed.

Lemma calls_crash t msg w : calls t (crash msg w) = calls t w.
Proof. done. Qed.

(** One step of a worker, for its source and for the metrics. *)
Lemma processEventLog_source i w w' (api : S) :
  processEventLog i w = Some w' → eventLogs (eb w) !! i = Some api →
  ∃ evs, calls (TWorker i) w' = calls (TWorker i) w ++ evs ∧
    eventLogs (eb w') !! i = Some (source_after api evs) ∧
    adds evs = counted api evs.
Proof.
  unfold processEventLog. intros Hstep Hapi.
  pose proof (lookup_lt_Some _ _ _ Hapi) as Hlt.
  destruct (workers w !! i) as [[p pn]|] eqn:Hg; [|done].
  rewrite Hapi in Hstep. simpl in Hstep.
  destruct p; simpl in Hstep; step_cases.
  all: eexists; split;
    [rewrite ?calls_crash; calls_simpl;
     first [reflexivity|symmetry; apply app_nil_r]|].
  all: unfold source_after; simpl;
    repeat match goal with
      | E : ?x = (_, _) |- context [?x] => rewrite E
      end; simpl; rewrite ?list_lookup_insert_eq by done; done.
Qed.

Lemma sources_step b w t w' :
  (∀ i log, eventLogs b !! i = Some log →
     eventLogs (eb w) !! i = Some (source_after log (calls (TWorker i) w)) ∧
     adds (calls (TWorker i) w) = counted log (calls (TWorker i) w)) →
  step t w = Some w' →
  ∀ i log, eventLogs b !! i = Some log →
    eventLogs (eb w') !! i = Some (source_after log (calls (TWorker i) w')) ∧
    adds (calls (TWorker i) w') = counted log (calls (TWorker i) w').
Proof.
  intros Hw Hstep i log Hlog. destruct (Hw i log Hlog) as [Hsrc Hadds].
  unfold step in Hstep. destruct (crashed w); [done|].
  destruct t as [|j|j].
  - rewrite (calls_Run _ _ _ Hstep) by done.
    apply Run_step in Hstep as [| | | | |msg _ _ ->]; try done.
    all: match goal with Heb : eb _ = _ |- _ => by rewrite Heb end.
  - destruct (decide (j = i)) as [->|Hne].
    + destruct (processEventLog_source _ _ _ _ Hstep Hsrc)
        as (evs & -> & -> & Hevs).
      by rewrite source_after_app, adds_app, counted_app, Hadds, Hevs.
    + apply processEventLog_moves in Hstep.
      rewrite (calls_moves _ _ _ _ Hstep) by congruence.
      destruct Hstep as (_ & _ & _ & _ & _ & _ & _ & [_ _ _ _ _ Hlogs]).
      by rewrite Hlogs by done.
  - rewrite (calls_stopping _ _ _ _ Hstep) by done.
    apply stopping_step in Hstep as [_ _ _ Hlogs _ _]. by rewrite Hlogs.
Qed.

Lemma metered_step w t w' :
  Forall metered (trace w) → step t w = Some w' → Forall metered (trace w').
Proof.
  unfold step. intros Hw Hstep. destruct (crashed w); [done|].
  destruct t as [|i|j].
  - unfold Run in Hstep. step_cases; simpl; rewrite ?Forall_app; try done.
    all: split_and!; try done; by repeat constructor.
  - unfold processEventLog in Hstep.
    destruct (workers w !! i) as [[p pn]|] eqn:Hg; [|done].
    destruct (eventLogs (eb w) !! i) as [api|] eqn:Hapi; [|done].
    simpl in Hstep.
    destruct p; simpl in Hstep; step_cases; simpl; rewrite ?Forall_app;
      try done.
    all: split_and!; try done; by repeat constructor.
  - unfold stopping in Hstep. step_cases; simpl; rewrite ?Forall_app;
      try done.
    all: split_and!; try done; by repeat constructor.
Qed.

(** X8: the metrics count the events of the accepted batches and
    nothing else.  The source of a worker is at every moment what the
    calls of Open, Read and Close of that worker made of it, and for every
    batch that PublishEvents accepted, and only for those, the worker adds
    the number of its events to publishedEvents twice: under "total", and
    under api.Name(), the name of its source as it is at that moment; when
    the calls on a source keep its name, this is the name of the event log
    that Setup made.  The step that publishes a batch with success makes
    these two calls of Add.  Run adds only 0, which makes the entries
    exist; Stop adds nothing; and nothing but 0 is ever added to
    ignoredEvents. *)
Theorem X8_the_metrics_count_the_accepted_batches b sched i log :
  eventLogs b !! i = Some log →
  eventLogs (eb (exec sched (init b))) !! i =
    Some (source_after log (calls (TWorker i) (exec sched (init b)))) ∧
  adds (calls (TWorker i) (exec sched (init b))) =
    counted log (calls (TWorker i) (exec sched (init b))) ∧
  ((∀ n s, eventlog.Name (eventlog.Open n s).2 = eventlog.Name s) →
   (∀ s, eventlog.Name (eventlog.Read s).2 = eventlog.Name s) →
   (∀ s, eventlog.Name (eventlog.Close s).2 = eventlog.Name s) →
   adds (calls (TWorker i) (exec sched (init b))) =
     concat (counts (eventlog.Name log) <$>
               accepted_sizes (calls (TWorker i) (exec sched (init b))))) ∧
  (∀ w g api records c c',
     crashed w = None → workers w !! i = Some g →
     pc g = PcPublish records →
     eventLogs (eb w) !! i = Some api → client (eb w) = Some c →
     publisher.PublishEvents (map eventlog.ToMapStr records) opts c = (true, c') →
     adds (calls (TWorker i) (tick w (TWorker i))) =
       adds (calls (TWorker i) w) ++
         [(publishedEvents, "total", Z.of_nat (length records));
          (publishedEvents, eventlog.Name api, Z.of_nat (length records))]) ∧
  (∀ t m key d,
     (t, EvAdd m key d) ∈ trace (exec sched (init b)) →
     (∃ j, t = TWorker j ∧ m = publishedEvents) ∨ t = TMain ∧ d = 0) ∧
  (∀ t key d,
     (t, EvAdd ignoredEvents key d) ∈ trace (exec sched (init b)) → d = 0).
Proof.
  intros Hlog.
  assert (Forall metered (trace (exec sched (init b)))) as Hall.
  { apply (exec_invariant (λ w, Forall metered (trace w))); [by constructor|].
    intros w t w' Hw _ Hstep. by eapply metered_step. }
  rewrite Forall_forall in Hall.
  assert (eventLogs (eb (exec sched (init b))) !! i =
            Some (source_after log (calls (TWorker i) (exec sched (init b)))) ∧
          adds (calls (TWorker i) (exec sched (init b))) =
            counted log (calls (TWorker i) (exec sched (init b))))
    as [Hsrc Hadds].
  { revert i log Hlog.
    apply (exec_invariant
             (λ w, ∀ i log, eventLogs b !! i = Some log →
                eventLogs (eb w) !! i =
                  Some (source_after log (calls (TWorker i) w)) ∧
                adds (calls (TWorker i) w) =
                  counted log (calls (TWorker i) w))); [done|].
    intros w t w' Hw _ Hstep. by eapply sources_step. }
  split_and!; try done.
  - intros Hopen Hread Hclose. rewrite Hadds. by apply counted_stable.
  - intros w g api records c c' Hcr Hg Hpc Hapi Hc Hpub.
    rewrite (tick_publish _ _ _ _ _ _ _ _ Hcr Hg Hpc Hapi Hc Hpub). simpl.
    calls_simpl. rewrite adds_app, length_map. done.
  - intros t m key d Hin. specialize (Hall _ Hin). unfold metered in Hall.
    simpl in Hall. destruct t; [by right|left; by eauto|done].
  - intros t key d Hin. specialize (Hall _ Hin). unfold metered in Hall.
    simpl in Hall. by destruct t.
Qed.

(** *** The shape of the loop *)

Lemma run_split st g tr :
  run st g tr →
  ∀ pre (e : Event) post, tr = pre ++ e :: post →
    ∃ g0 evs g1 pre0 k rest,
      run st g0 pre0 ∧ move g0 evs g1 ∧
      pre = pre0 ++ k ∧ evs = k ++ e :: rest.
Proof.
  induction 1 as [|g evs g' tr Hrun IH Hmove].
  - intros pre ?? Hnil. by destruct pre.
  - intros pre e post [(post' & -> & ->)|(k & -> & Hk)]%split_snoc.
    + by eapply IH.
    + by exists g, evs, g', tr, k, post.
Qed.

Lemma run_poised st g tr : run st g tr → poised g tr.
Proof.
  induction 1 as [|g evs g' tr Hrun IH Hmove]; [done|].
  unfold poised in *. destruct Hmove; simpl in *; try done.
  - by exists tr.
  - destruct records; [|done]. by exists tr, name.
  - split; [by intros ->|]. by exists tr, name.
Qed.

(** X14: the shape of the loop, in the calls of a worker.  Every call
    of Read comes directly after a select that found the done channel not
    closed; the worker sleeps only directly after a Read that returned no
    record and no error, and then for one second; and every call of
    PublishEvents comes directly after a Read that returned records and no
    error, with the events of exactly those records and the options Sync
    and Guaranteed.  So the worker looks at the done channel before every
    Read, and does not sleep between two batches. *)
Theorem X14_the_worker_selects_before_every_read_and_sleeps_only_when_idle
    b sched i pre e post :
  calls (TWorker i) (exec sched (init b)) = pre ++ e :: post →
  match e with
  | EvRead _ _ => ∃ pre', pre = pre' ++ [EvSelect false]
  | EvSleep d =>
      d = 1000000000 ∧
      ∃ pre' name,
        pre = pre' ++ [EvRead [] None; EvLog Debug (MsgReadReturned name 0)]
  | EvPublish events o _ =>
      ∃ pre' records name,
        pre = pre' ++ [EvRead records None;
                       EvLog Debug (MsgReadReturned name (length records))] ∧
        records ≠ [] ∧
        events = map eventlog.ToMapStr records ∧
        o = opts
  | _ => True
  end.
Proof.
  intros Hcalls.
  destruct (worker_runs b sched i) as (st & g & Hrun & _).
  destruct (run_split _ _ _ Hrun _ _ _ Hcalls)
    as (g0 & evs & g1 & pre0 & k & rest & Hrun0 & Hmove & -> & Hevs).
  apply run_poised in Hrun0. unfold poised in Hrun0.
  destruct e; try done.
  all: destruct Hmove; simpl in *;
    destruct k as [|? [|? [|? [|? k]]]]; simplify_eq/=;
    rewrite ?app_nil_r; try done.
  all: try by match goal with
              | Hk : [] = ?l ++ _ :: _ |- _ => destruct l
              end.
  all: destruct Hrun0 as [Hne (pre' & name' & ->)]; by exists pre', records, name'.
Qed.

(** *** The wait group *)

(** X15: the counter of the wait group of Run is at every moment the
    number of workers that were started and have not returned, so it is
    never negative; at most one worker is started for each event log, and
    exactly one for each once Run is at wg.Wait(). *)
Theorem X15_the_wait_group_counts_the_workers_that_have_not_returned b sched :
  wg (exec sched (init b)) =
    Z.of_nat (pending (workers (exec sched (init b)))) ∧
  (length (workers (exec sched (init b))) ≤ length (eventLogs b))%nat ∧
  (main (exec sched (init b)) = MainWait →
   length (workers (exec sched (init b))) = length (eventLogs b)).
Proof.
  destruct (coordinated_exec b sched) as [_ (Hle & Hlen & Hwg & Hmain)].
  split_and!; [done|lia|]. intros Hwait. rewrite Hwait in Hmain.
  destruct Hmain as [Hall _]. lia.
Qed.

(** *** The return of [Run] *)

Lemma pending_none gs :
  pending gs = 0%nat ↔ ∀ i g, gs !! i = Some g → pc g = PcExit.
Proof.
  split.
  - intros Hzero i g Hg.
    pose proof (pending_zero _ _ Hzero (list_elem_of_lookup_2 _ _ _ Hg)) as Hfin.
    unfold finished in Hfin. by destruct (pc g).
  - intros Hall. induction gs as [|g gs IH]; [done|].
    rewrite pending_cons. unfold finished.
    rewrite (Hall 0%nat g eq_refl). apply IH.
    intros i g' Hg'. by apply (Hall (Datatypes.S i)).
Qed.

(** X10: when Run is at wg.Wait(), it goes on exactly when every worker
    has returned; while one of them has not, Run cannot move.  When all
    have returned, its next two steps are the return of wg.Wait() and the
    call of Shutdown on the store, after which Run has returned, and the
    process has not ended in a panic. *)
Theorem X10_Run_waits_for_the_workers_and_then_shuts_the_store_down
    b sched k :
  crashed (exec sched (init b)) = None →
  main (exec sched (init b)) = MainWait →
  checkpoint (eb (exec sched (init b))) = Some k →
  (is_Some (step TMain (exec sched (init b))) ↔
   ∀ i g, workers (exec sched (init b)) !! i = Some g → pc g = PcExit) ∧
  ((∀ i g, workers (exec sched (init b)) !! i = Some g → pc g = PcExit) →
   main (exec [TMain; TMain] (exec sched (init b))) = MainReturned ∧
   checkpoint (eb (exec [TMain; TMain] (exec sched (init b)))) =
     Some (checkpoint.Shutdown k) ∧
   calls TMain (exec [TMain; TMain] (exec sched (init b))) =
     calls TMain (exec sched (init b)) ++ [EvWgWait; EvShutdown] ∧
   crashed (exec [TMain; TMain] (exec sched (init b))) = None).
Proof.
  intros Hcr Hmain Hk.
  destruct (coordinated_exec b sched) as [_ (_ & _ & Hwg & _)].
  set (w := exec sched (init b)) in *.
  assert (wg w = 0 ↔ ∀ i g, workers w !! i = Some g → pc g = PcExit) as Hzero.
  { rewrite <-pending_none, Hwg. lia. }
  split.
  - rewrite <-Hzero. unfold step, Run. rewrite Hcr, Hmain.
    destruct (decide (wg w = 0)) as [Hw|Hw]; split; done.
  - intros Hall%Hzero. rewrite !exec_cons, exec_nil.
    assert (step TMain w =
              Some (set_main MainShutdown (emit TMain EvWgWait w))) as Hwait.
    { unfold step, Run. rewrite Hcr, Hmain.
      by destruct (decide (wg w = 0)). }
    rewrite (tick_step _ _ _ Hwait).
    assert (step TMain (set_main MainShutdown (emit TMain EvWgWait w)) =
              Some (set_main MainReturned
                      (emit TMain EvShutdown
                         (set_checkpoint (checkpoint.Shutdown k)
                            (set_main MainShutdown (emit TMain EvWgWait w))))))
      as Hshut.
    { unfold step, Run. simpl. by rewrite Hcr, Hk. }
    rewrite (tick_step _ _ _ Hshut). simpl. split_and!; try done.
    unfold calls. simpl. rewrite !filter_app, !fmap_app, <-(assoc_L (++)).
    done.
Qed.

(** *** Progress *)

Lemma pending_some gs :
  pending gs ≠ 0%nat → ∃ i g, gs !! i = Some g ∧ pc g ≠ PcExit.
Proof.
  induction gs as [|g gs IH]; [done|]. rewrite pending_cons.
  destruct (finished g) eqn:Hfin.
  - intros (i & g' & Hg' & Hpc)%IH. by exists (Datatypes.S i), g'.
  - intros _. exists 0%nat, g. split; [done|].
    unfold finished in Hfin. by destruct (pc g).
Qed.

(** X12: Run is never stuck.  As long as Run has not returned and the
    process has not ended in a panic, Run itself or a worker that has not
    returned can take a step: when Run waits at wg.Wait(), a worker has not
    returned yet, and such a worker has a next call to make (the calls on
    the source, the client and the store are taken to return). *)
Theorem X12_while_Run_has_not_returned_a_goroutine_can_move b sched :
  crashed (exec sched (init b)) = None →
  main (exec sched (init b)) ≠ MainReturned →
  is_Some (step TMain (exec sched (init b))) ∨
  ∃ i g, workers (exec sched (init b)) !! i = Some g ∧ pc g ≠ PcExit ∧
    is_Some (step (TWorker i) (exec sched (init b))).
Proof.
  intros Hcr Hmain.
  destruct (coordinated_exec b sched) as [_ (_ & _ & Hwg & _)].
  destruct (decide (wg (exec sched (init b)) = 0)) as [Hzero|Hne].
  - left. unfold step, Run. rewrite Hcr.
    destruct (main _); try done;
      repeat match goal with
        | |- is_Some (Some _) => by eexists
        | |- context [decide (wg ?w0 = 0)] =>
            destruct (decide (wg w0 = 0)); [|done]
        | |- context [match ?x with _ => _ end] => destruct x
        end.
  - right. destruct (pending_some (workers (exec sched (init b))))
      as (i & g & Hg & Hpc); [lia|].
    exists i, g. split_and!; try done.
    destruct (worker_has_source _ _ _ _ Hg) as [api Hapi].
    unfold step. rewrite Hcr. by eapply processEventLog_enabled.
Qed.

(** *** [Config], and [Setup] after it *)

(** X11: when Config returns without error, the raw configuration was
    unpacked into settings, and the registry file of the beater is the
    configured one, or the default one when none is configured, resolved
    against the data path; the rest of the settings is as unpacked.  Setup
    on the beater that Config leaves does not panic, and asks for the store
    of that resolved file: the store of the beater is the one that
    NewCheckpoint makes for it, and when NewCheckpoint fails Setup returns
    its error and the beater has no store. *)
Theorem X11_Setup_after_Config_makes_the_store_of_the_resolved_file
    (l : Loader (Cfg:=Cfg)) (bt : Beat (S:=S) (C:=C) (K:=K) (Cfg:=Cfg))
    b logs b1 :
  Config l b = (logs, Ok (b1, None)) →
  ∃ s file,
    RawConfig_Unpack l (config b) = (Some s, None) ∧
    file = paths_Resolve l PathData
             (if decide (RegistryFile s = "") then DefaultRegistryFile l
              else RegistryFile s) ∧
    config b1 = Some {| RegistryFile := file;
                        Metrics_BindAddress := Metrics_BindAddress s;
                        EventLogs := EventLogs s |} ∧
    match Setup bt b1 with
    | Panic _ => False
    | Ok (b2, err) =>
        match NewCheckpoint bt file 10 5000000000 with
        | inl k => checkpoint b2 = Some k
        | inr e => err = Some e ∧ checkpoint b2 = None
        end
    end.
Proof.
  unfold Config. intros Hconfig.
  destruct (RawConfig_Unpack l (config b)) as [cfg [e|]] eqn:Hunpack;
    [done|].
  destruct (Settings_Validate l cfg) as [[e|]|msg]; try done.
  destruct cfg as [s|]; [|done]. injection Hconfig as <- <-.
  eexists s, _. split_and!; try done.
  unfold Setup. simpl. change (5 * time.Second) with 5000000000.
  destruct (NewCheckpoint bt _ _ _) as [k|e] eqn:Hk; simpl; [|done].
  destruct (if decide (Metrics_BindAddress s = "") then None else _);
    [done|].
  by destruct (newEventLogs bt (EventLogs s) []).
Qed.

(** *** [uptime] *)

Lemma quot_microsecond (d : Z) :
  (1000 * Z.abs (d `quot` 1000) ≤ Z.abs d < 1000 * Z.abs (d `quot` 1000) + 1000)%Z ∧
  (0 ≤ (d `quot` 1000) * d)%Z ∧
  (∀ ms, d = ms * 1000000 → d `quot` 1000 = 1000 * ms).
Proof.
  split; [|split].
  - Z.to_euclidean_division_equations. lia.
  - destruct (Z.le_gt_cases 0 d) as [Hd|Hd].
    + apply Z.mul_nonneg_nonneg; [|done].
      Z.to_euclidean_division_equations. lia.
    + apply Z.mul_nonpos_nonpos; [|lia].
      Z.to_euclidean_division_equations. lia.
  - intros ms ->. replace (ms * 1000000) with (1000 * ms * 1000) by lia.
    by rewrite Z.quot_mul.
Qed.

(** X13: what uptime returns, for every start time and every reading of
    the clock.  The map has the four entries "start_time", "uptime",
    "uptime_ms" and "server_time" and no other.  With [d] the nanoseconds
    from the start time to the reading of the clock, kept within the range
    of an int64 (beyond it [d] is the nearest end of the range), "uptime"
    is the String of the Duration [d], and "uptime_ms" is the decimal
    numeral of [q], which is [d] divided by 1000 and rounded towards zero:
    1000 * |q| <= |d| < 1000 * |q| + 1000, and [q] has the sign of [d], also
    when the clock was set back.  So "uptime_ms" is a number of
    microseconds: for [ms] milliseconds it is 1000 * ms.  "start_time" is
    the start time as it is, and "server_time" is the reading of the clock
    with its location set to UTC. *)
Theorem X13_uptime_ms_is_a_number_of_microseconds
    (Duration_String : Z → string) (startTime clock : time.Time) :
  ∃ d q : Z,
    uptime Duration_String startTime clock =
      {[ "start_time" := VTime startTime;
         "uptime" := VString (Duration_String d);
         "uptime_ms" := VString (pretty.pretty q);
         "server_time" := VTime (time.mkTime (time.wall clock) None) ]} ∧
    (- 2 ^ 63 ≤ d ≤ 2 ^ 63 - 1)%Z ∧
    ((- 2 ^ 63 ≤ time.wall clock - time.wall startTime ≤ 2 ^ 63 - 1)%Z →
     d = time.wall clock - time.wall startTime) ∧
    (time.wall clock - time.wall startTime < - 2 ^ 63 → d = - 2 ^ 63) ∧
    (2 ^ 63 - 1 < time.wall clock - time.wall startTime → d = 2 ^ 63 - 1) ∧
    (1000 * Z.abs q ≤ Z.abs d < 1000 * Z.abs q + 1000)%Z ∧
    (0 ≤ q * d)%Z ∧
    (∀ ms, d = ms * 1000000 → q = 1000 * ms).
Proof.
  exists (time_Sub (time.UTC clock) startTime),
    (time_Sub (time.UTC clock) startTime `quot` 1000).
  destruct (quot_microsecond (time_Sub (time.UTC clock) startTime))
    as (Hbound & Hsign & Hms).
  split; [done|]. unfold time_Sub in *. simpl in *.
  destruct (decide (time.wall clock - time.wall startTime < - 2 ^ 63));
    [|destruct (decide (2 ^ 63 - 1 < time.wall clock - time.wall startTime))].
  all: split_and!; try done; lia.
Qed.

End properties.

(** ** The theorems at work on scripted runs *)

Section scenarios.
Import beater script.

(** First scenario: the call Persist("App", 2, ...) stands after the
    acknowledged publish of the batch [1,2]. *)
Lemma C1_witness :
  ∃ records r,
    acknowledged records
      (take 9 (calls (TWorker 0) (exec app_schedule (init app_beat)))) ∧
    last records = Some r ∧
    2 = eventlog.RecordID r ∧
    time.mkTime 200 None = time.UTC (eventlog.SystemTime r).
Proof.
  apply (C1_persist_only_after_acknowledged_publish
           app_beat app_schedule 0 _ "App" 2 (time.mkTime 200 None)
           (drop 10 (calls (TWorker 0) (exec app_schedule (init app_beat))))).
  vm_compute. reflexivity.
Defined.

(** Second scenario: the publish of the batch [4,5] fails; the store is
    left at record 3 and the worker is at its deferred calls. *)
Lemma C2_witness :
  let w := exec late_schedule (init late_beat) in
  let w' := tick w (TWorker 0) in
  checkpoint (eb w') = checkpoint (eb w) ∧
  pc <$> workers w' !! 0%nat = Some PcDeferClose ∧
  ∀ sched', ∃ post err name,
    calls (TWorker 0) (exec sched' w') = calls (TWorker 0) w' ++ post ∧
    post `prefix_of` cleanup err name ∧
    Forall (λ e, ¬ is_persist e) post.
Proof.
  apply (C2_failed_publish_exits_without_persist late_beat late_schedule 0
           (tick (exec late_schedule (init late_beat)) (TWorker 0))
           (map eventlog.ToMapStr [rec_ 4; rec_ 5]) opts).
  - vm_compute. reflexivity.
  - vm_compute. reflexivity.
Defined.

(** First scenario: the batch [1,2] is read and published, and the store
    is given record 2. *)
Lemma C3_witness :
  let w := exec app_first_read (init app_beat) in
  let w' := exec [TWorker 0; TWorker 0; TWorker 0] w in
  calls (TWorker 0) w' =
    calls (TWorker 0) w ++
      [EvRead [rec_ 1; rec_ 2] None;
       EvLog Debug (MsgReadReturned "App" 2);
       EvPublish (map eventlog.ToMapStr [rec_ 1; rec_ 2]) opts true;
       EvAdd publishedEvents "total" 2;
       EvAdd publishedEvents "App" 2;
       EvLog Info (MsgPublished "App" 2);
       EvPersist "App" 2 (time.mkTime 200 None)] ∧
  checkpoint (eb w') =
    Some (checkpoint.Persist "App" 2 (time.mkTime 200 None) empty_store) ∧
  time.wall (time.mkTime 200 None) = time.wall (created (rec_ 2)) ∧
  workers w' !! 0%nat = Some (mkGoroutine PcSelect None) ∧
  crashed w' = None.
Proof.
  pose proof (C3_persists_the_last_record_of_the_batch
                (exec app_first_read (init app_beat)) 0
                (mkGoroutine PcRead None)
                (opened 0 app_source) (read_ 1 (opened 0 app_source))
                [rec_ 1; rec_ 2] (rec_ 2)
                (accepting []) (accepting [[rec_ 1; rec_ 2]]) empty_store)
    as H.
  vm_compute in H. vm_compute. apply H; reflexivity.
Defined.

(** First scenario: the identifiers read are 1, 2, 3, so the persisted
    positions do not decrease. *)
Lemma C4_witness :
  Sorted Z.le (persisted (calls (TWorker 0) (exec app_schedule (init app_beat)))).*1.
Proof.
  apply (C4_checkpoints_follow_the_order_of_the_source app_beat app_schedule 0).
  vm_compute. repeat constructor; discriminate.
Defined.

(** After Setup, the first call of Stop returns; a second one panics. *)
Lemma C5_witness :
  Stop ready =
    Ok {| config := config ready; eventLogs := eventLogs ready;
          done := ChanClosed;
          client := Some (publisher.Close (accepting []));
          checkpoint := checkpoint ready |} ∧
  (∀ sched, (signals (trace (exec sched (init ready))) ≤ 1)%nat) ∧
  (∀ b', Stop ready = Ok b' → Stop b' = Panic "close of closed channel").
Proof.
  pose proof (C5_stop_closes_the_done_channel_once
                (Rec:=rec) (MapStr:=mapstr) ready (accepting []))
    as (H1 & _ & H3 & H4); [reflexivity..|].
  by split_and!.
Defined.

(** First scenario: the call of Shutdown is the last of the 38 calls. *)
Lemma C6_witness :
  let w := exec app_schedule (init app_beat) in
  let pre := take 37 (trace w) in
  (TMain, EvShutdown) = (TMain, EvShutdown (Rec:=rec) (MapStr:=mapstr)) ∧
  main w = MainReturned ∧
  Forall (λ y, ¬ is_shutdown y.2) pre ∧
  Forall (λ y : tid * Event rec mapstr, ¬ is_shutdown y.2) [] ∧
  length (workers w) = length (eventLogs app_beat) ∧
  (∀ i g, workers w !! i = Some g →
     pc g = PcExit ∧ (TWorker i, EvWgDone) ∈ pre) ∧
  Forall (λ y : tid * Event rec mapstr, ∃ j, y.1 = TStop j) [].
Proof.
  apply (proj2 (C6_shutdown_once_after_every_worker app_beat app_schedule)
           (take 37 (trace (exec app_schedule (init app_beat))))
           (TMain, EvShutdown) []).
  - vm_compute. reflexivity.
  - exact I.
Defined.

(** Third scenario: "App" cannot be opened; "Sys" goes on. *)
Lemma C7_witness :
  let w := exec two_schedule (init two_beat) in
  (∃ name,
     [EvLog Warn (MsgOpenError "App" "access denied") : Event rec mapstr]
       `prefix_of`
       [EvLog Warn (MsgOpenError name "access denied"); EvWgDone]) ∧
  (∀ w', step (TWorker 0) w = Some w' →
     calls (TWorker 0) w' = calls (TWorker 0) w ++ [EvWgDone] ∧
     crashed w' = None ∧
     client (eb w') = client (eb w) ∧
     checkpoint (eb w') = checkpoint (eb w) ∧
     done (eb w') = done (eb w) ∧
     ∀ j, j ≠ 0%nat →
       workers w' !! j = workers w !! j ∧
       eventLogs (eb w') !! j = eventLogs (eb w) !! j) ∧
  (∀ j g, j ≠ 0%nat → crashed w = None →
     workers w !! j = Some g → pc g ≠ PcExit →
     is_Some (step (TWorker j) w)).
Proof.
  apply (C7_open_failure_ends_only_that_worker two_beat two_schedule 0 0
           "access denied" [EvLog Warn (MsgOpenError "App" "access denied")]).
  vm_compute. reflexivity.
Defined.

(** First scenario: the third read is empty. *)
Lemma C8_witness :
  let w := exec app_third_read (init app_beat) in
  let w' := exec [TWorker 0; TWorker 0] w in
  calls (TWorker 0) w' =
    calls (TWorker 0) w ++
      [EvRead [] None; EvLog Debug (MsgReadReturned "App" 0);
       EvSleep 1000000000] ∧
  workers w' !! 0%nat = Some (mkGoroutine PcSelect None) ∧
  checkpoint (eb w') = checkpoint (eb w) ∧
  client (eb w') = client (eb w) ∧
  done (eb w') = done (eb w) ∧
  crashed w' = None ∧
  (done (eb w) ≠ ChanClosed →
   ∃ rest,
     calls (TWorker 0) (exec [TWorker 0; TWorker 0] w') =
       calls (TWorker 0) w' ++ EvSelect false :: EvRead [] None :: rest).
Proof.
  pose proof (C8_empty_read_sleeps_one_second_and_repolls
                (exec app_third_read (init app_beat)) 0
                (mkGoroutine PcRead None)
                (read_ 2 (opened 0 app_source)) (read_ 2 (opened 0 app_source)) [])
    as H.
  vm_compute in H. vm_compute. apply H; reflexivity.
Defined.

(** A source whose second read fails: the error is logged, the source is
    closed and the worker returns. *)
Lemma C9_witness :
  ∃ name rest err cname,
    [EvLog Warn (MsgReadError "App" "read failed") : Event rec mapstr;
     EvLog Info MsgStopProcessing; EvClose None; EvWgDone] =
      EvLog Warn (MsgReadError name "read failed") :: rest ∧
    rest `prefix_of` cleanup err cname ∧
    Forall (λ e : Event rec mapstr, ¬ is_publish e ∧ ¬ is_persist e)
      [EvLog Warn (MsgReadError "App" "read failed");
       EvLog Info MsgStopProcessing; EvClose None; EvWgDone].
Proof.
  apply (proj1 (C9_read_error_breaks_the_loop_and_the_source_is_closed
                  failing_beat failing_schedule 0)
           (take 11 (calls (TWorker 0) (exec failing_schedule (init failing_beat))))
           [] "read failed").
  vm_compute. reflexivity.
Defined.

(** First scenario: the store is empty.  After two turns Run has started
    the worker of "App" with the zero value, and the first step of the
    worker is Open(0), after which the source is open at record 0; and
    after one turn Run is at the event log "App" and its next step starts
    that worker. *)
Lemma C10_witness :
  let w1 := exec [TMain; TMain] (init app_beat) in
  ((TMain, EvGo 0 checkpoint.zero) ∈ trace w1 ∧
   workers w1 !! 0%nat = Some (mkGoroutine (PcOpen checkpoint.zero) None) ∧
   crashed w1 = None ∧
   calls (TWorker 0) (tick w1 (TWorker 0)) =
     [EvOpen 0 None; EvLog Debug (MsgOpened "App")] ∧
   eventLogs (eb (tick w1 (TWorker 0))) !! 0%nat = Some (opened 0 app_source) ∧
   crashed (tick w1 (TWorker 0)) = None) ∧
  ∃ w', step TMain (exec [TMain] (init app_beat)) = Some w' ∧
    workers w' = [mkGoroutine (PcOpen checkpoint.zero) None] ∧
    main w' = MainLoop 1 ∅ ∧
    crashed w' = None.
Proof.
  pose proof (C10_absent_entry_starts_at_record_zero
                app_beat [TMain] empty_store 0 app_source
                eq_refl eq_refl eq_refl) as (_ & _ & Hnext & Hfirst).
  specialize (Hnext ∅ eq_refl eq_refl).
  vm_compute in Hnext, Hfirst. vm_compute. split; assumption.
Defined.

(** C5 as it is stated fails: in the state that Setup leaves, the second
    of two calls of Stop in succession does not return, it panics on the
    closed channel. *)
Lemma C5_second_stop_panics :
  Setup env configured = Ok (ready, None) ∧
  ∃ b1, Stop ready = Ok b1 ∧ Stop b1 = Panic "close of closed channel".
Proof. split; [|eexists; split]; vm_compute; reflexivity. Qed.


(** Setup of the configured beater: one event log, for "App". *)
Lemma X1_witness :
  ∃ cfg k,
    config configured = Some cfg ∧ config ready = Some cfg ∧
    done ready = ChanOpen ∧
    client ready = Some (Publisher_Connect env) ∧
    NewCheckpoint env (RegistryFile cfg) 10 5000000000 = inl k ∧
    checkpoint ready = Some k ∧
    Forall2 (λ c log, eventlog_New env c = inl log) (EventLogs cfg)
      (eventLogs ready).
Proof.
  apply (X1_Setup_makes_one_event_log_per_configured env configured ready).
  vm_compute. reflexivity.
Defined.

(** Setup fails at "Sec": the event log of "App" is kept, none is made
    for "Sys". *)
Lemma X2_witness :
  Setup picky three_configured =
    Ok (half_ready,
        Some ("Failed to create new event log. " +:+ "no such channel")).
Proof.
  apply (X2_Setup_stops_at_the_first_event_log_that_fails
           picky three_configured three_logs empty_store
           ["App"] "Sec" ["Sys"] [yields "App" []] "no such channel").
  - reflexivity.
  - reflexivity.
  - intros Hne. by destruct Hne.
  - reflexivity.
  - repeat constructor.
  - reflexivity.
Defined.

(** Stop after the Setup that failed at "Sec". *)
Lemma X3_witness :
  Stop half_ready =
    Ok {| config := config half_ready; eventLogs := eventLogs half_ready;
          done := ChanClosed;
          client := Some (publisher.Close (Publisher_Connect picky));
          checkpoint := checkpoint half_ready |}.
Proof.
  apply (X3_Stop_after_Setup_returns picky three_configured half_ready
           (Some ("Failed to create new event log. " +:+ "no such channel"))).
  vm_compute. reflexivity.
Defined.

(** Two calls of Stop: the second one finds the channel closed. *)
Lemma X4_witness :
  "close of closed channel" = "close of closed channel" ∧
  (2 ≤ length (stops (exec double_stop (init app_beat))))%nat.
Proof.
  apply (X4_only_a_second_Stop_panics app_beat double_stop
           "close of closed channel").
  - by eexists.
  - by eexists.
  - reflexivity.
  - vm_compute. reflexivity.
Defined.

(** First scenario: when Stop has returned the worker is at its select;
    five turns later it has returned. *)
Lemma X5_witness :
  (rank (PcSelect (Rec:=rec)) ≤ 6)%nat ∧
  ∃ g', workers (exec app_last_turns (exec app_stopped (init app_beat)))
          !! 0%nat = Some g' ∧
    pc g' = PcExit.
Proof.
  apply (X5_worker_returns_within_six_steps_of_the_signal
           app_beat app_stopped app_last_turns 0 (mkGoroutine PcSelect None)).
  - vm_compute. reflexivity.
  - vm_compute. reflexivity.
  - vm_compute. reflexivity.
  - vm_compute. lia.
Defined.

(** A store that holds record 2 for "App": the worker opens at 2. *)
Lemma X6_witness :
  (∃ err,
     (EvOpen 2 None : Event rec mapstr) =
       EvOpen
         (checkpoint.RecordNumber
            (default checkpoint.zero
               (checkpoint.States stored
                  !! eventlog.Name (yields "App" [([rec_ 3], None)])))) err) ∧
  Forall (λ e, ¬ is_open e)
    (drop 1 (calls (TWorker 0) (exec resumed_schedule (init resumed_beat)))).
Proof.
  apply (X6_a_worker_opens_its_source_once_at_the_stored_record
           resumed_beat resumed_schedule stored 0
           (yields "App" [([rec_ 3], None)])).
  - reflexivity.
  - reflexivity.
  - vm_compute. reflexivity.
Defined.

(** First scenario: the store at the end is the empty store after
    Persist("App", 2), Persist("App", 3) and Shutdown. *)
Lemma X7_witness :
  checkpoint (eb (exec app_schedule (init app_beat))) =
    Some (replay empty_store (trace (exec app_schedule (init app_beat)))).
Proof.
  apply (X7_the_store_is_the_calls_of_Persist_and_Shutdown_replayed
           app_beat app_schedule empty_store).
  reflexivity.
Defined.

(** First scenario: the batches [1,2] and [3] are accepted; 2 and 1 are
    added under "total" and under "App". *)
Lemma X8_witness :
  adds (calls (TWorker 0) (exec app_schedule (init app_beat))) =
    [(publishedEvents, "total", 2); (publishedEvents, "App", 2);
     (publishedEvents, "total", 1); (publishedEvents, "App", 1)].
Proof.
  pose proof (X8_the_metrics_count_the_accepted_batches
                app_beat app_schedule 0 app_source eq_refl)
    as (_ & Hadds & _).
  vm_compute in Hadds. vm_compute. exact Hadds.
Defined.

(** Second scenario: the batches [1,2] and [3] are persisted, the
    refused batch [4,5] is not. *)
Lemma X9_witness :
  let tr := calls (TWorker 0) (exec late_refused (init late_beat)) in
  ∃ bs records,
    batches tr = bs ++ [records] ∧
    map eventlog.ToMapStr [rec_ 4; rec_ 5] = map eventlog.ToMapStr records ∧
    published tr = map eventlog.ToMapStr <$> (bs ++ [records]) ∧
    Some <$> persisted tr = watermark <$> bs.
Proof.
  apply (X9_a_worker_leaves_at_most_the_refused_batch_unpersisted
           late_beat late_refused 0
           (take 21 (calls (TWorker 0) (exec late_refused (init late_beat))))
           (EvPublish (map eventlog.ToMapStr [rec_ 4; rec_ 5]) opts false)
           [] []).
  - vm_compute. reflexivity.
  - constructor.
Defined.

(** First scenario: the worker has returned, Run leaves wg.Wait() and
    shuts the store down. *)
Lemma X10_witness :
  (is_Some (step TMain (exec app_workers_done (init app_beat))) ↔
   ∀ i g, workers (exec app_workers_done (init app_beat)) !! i = Some g →
     pc g = PcExit) ∧
  ((∀ i g, workers (exec app_workers_done (init app_beat)) !! i = Some g →
      pc g = PcExit) →
   main (exec [TMain; TMain] (exec app_workers_done (init app_beat))) =
     MainReturned ∧
   checkpoint (eb (exec [TMain; TMain] (exec app_workers_done (init app_beat)))) =
     Some (checkpoint.Shutdown app_store) ∧
   calls TMain (exec [TMain; TMain] (exec app_workers_done (init app_beat))) =
     calls TMain (exec app_workers_done (init app_beat)) ++
       [EvWgWait; EvShutdown] ∧
   crashed (exec [TMain; TMain] (exec app_workers_done (init app_beat))) = None).
Proof.
  apply (X10_Run_waits_for_the_workers_and_then_shuts_the_store_down
           app_beat app_workers_done app_store).
  - vm_compute. reflexivity.
  - vm_compute. reflexivity.
  - vm_compute. reflexivity.
Defined.

(** No registry file is configured: the store is asked for the default
    one, under the data path. *)
Lemma X11_witness :
  ∃ s file,
    RawConfig_Unpack loader (config fresh) = (Some s, None) ∧
    file = paths_Resolve loader PathData
             (if decide (RegistryFile s = "") then DefaultRegistryFile loader
              else RegistryFile s) ∧
    config loaded_beat =
      Some {| RegistryFile := file;
              Metrics_BindAddress := Metrics_BindAddress s;
              EventLogs := EventLogs s |} ∧
    match Setup env loaded_beat with
    | Panic _ => False
    | Ok (b2, err) =>
        match NewCheckpoint env file 10 5000000000 with
        | inl k => checkpoint b2 = Some k
        | inr e => err = Some e ∧ checkpoint b2 = None
        end
    end.
Proof.
  apply (X11_Setup_after_Config_makes_the_store_of_the_resolved_file
           loader env fresh (Config loader fresh).1 loaded_beat).
  vm_compute. reflexivity.
Defined.

(** First scenario, before the first read: the worker can move. *)
Lemma X12_witness :
  is_Some (step TMain (exec app_first_read (init app_beat))) ∨
  ∃ i g, workers (exec app_first_read (init app_beat)) !! i = Some g ∧
    pc g ≠ PcExit ∧
    is_Some (step (TWorker i) (exec app_first_read (init app_beat))).
Proof.
  apply (X12_while_Run_has_not_returned_a_goroutine_can_move
           app_beat app_first_read).
  - vm_compute. reflexivity.
  - vm_compute. discriminate.
Defined.



(** First scenario: the worker sleeps after its third read, which
    returned nothing. *)
Lemma X14_witness :
  1000000000 = 1000000000 ∧
  ∃ pre' name,
    take 21 (calls (TWorker 0) (exec app_workers_done (init app_beat))) =
      pre' ++ [EvRead [] None; EvLog Debug (MsgReadReturned name 0)].
Proof.
  apply (X14_the_worker_selects_before_every_read_and_sleeps_only_when_idle
           app_beat app_workers_done 0
           (take 21 (calls (TWorker 0) (exec app_workers_done (init app_beat))))
           (EvSleep 1000000000)
           (drop 22 (calls (TWorker 0) (exec app_workers_done (init app_beat))))).
  vm_compute. reflexivity.
Defined.

End scenarios.
